(** * loadFixture: the snapshot cache of hardhat-network-helpers

    A shallow embedding of
    [packages/hardhat-network-helpers/src/loadFixture.ts]: the module-level
    array [snapshots], [loadFixture] and [clearSnapshots].

    Conventions of the embedding.
    - JavaScript values are a tree type [JsValue]; a reference from inside an
      array or object back to one of its enclosing containers (what makes a
      structure circular) is the leaf [JCircular], and a shared sub-object is
      written out once per occurrence, which is also how [JSON.stringify]
      walks it.
    - The module is embedded twice.  Section [LoadFixture] takes argument
      values as data that nothing writes to; module [ByReference] passes
      the argument array by reference, as the source does, so that a stored
      record reads differently once a fixture has written to its argument
      objects.  Lemma [by_value_loadFixture] shows that the first is the
      second when a reference is the value it holds.
    - A thrown exception is a value of [JsError]; a computation that may throw
      returns a [Result].
    - [async]/[await] is run to completion in program order: callers await a
      call before they issue the next one.
    - The test network, [takeSnapshot] and the bodies of fixtures and
      restorers belong to other modules; they are a type [World] and
      functions on it, taken as parameters.  They act on the network only,
      not on [snapshots], which is private to this module. *)

From Stdlib Require Import List String Ascii ZArith Bool Lia DecimalString.
Import ListNotations.

Local Open Scope string_scope.
Local Open Scope Z_scope.

Set Warnings "-register-all".

(** ** JavaScript values and numbers *)

Module Js.

(** A JavaScript number, as far as the cache needs it: the integers, the two
    infinities and NaN. *)
Inductive JsNumber : Type :=
| NaN
| NegInfinity
| Finite (z : Z)
| PosInfinity.

(** [a <= b] on numbers: false as soon as one side is NaN. *)
Definition num_le (a b : JsNumber) : bool :=
  match a, b with
  | NaN, _ | _, NaN => false
  | NegInfinity, _ => true
  | _, PosInfinity => true
  | Finite x, Finite y => x <=? y
  | _, _ => false
  end.

(** [a > b] on numbers: false as soon as one side is NaN. *)
Definition num_gt (a b : JsNumber) : bool :=
  match a, b with
  | NaN, _ | _, NaN => false
  | PosInfinity, PosInfinity => false
  | PosInfinity, _ => true
  | NegInfinity, _ => false
  | Finite _, NegInfinity => true
  | Finite x, Finite y => y <? x
  | Finite _, PosInfinity => false
  end.

Definition isNaN (a : JsNumber) : bool :=
  match a with NaN => true | _ => false end.

(** The values an argument can be.  An object is its own enumerable string
    keyed properties in the order of enumeration; objects with a [toJSON]
    method are left out.  [JCircular] is a reference to an enclosing array
    or object. *)
Inductive JsValue : Type :=
| JUndefined
| JNull
| JBoolean (b : bool)
| JNumber (n : JsNumber)
| JBigInt (z : Z)
| JString (s : string)
| JSymbol (description : string)
| JFunction (name : string)
| JArray (elements : list JsValue)
| JObject (properties : list (string * JsValue))
| JCircular.

(** Modelled from the spec: the error classes of [./errors], which is not
    among the sources.  [FixtureSnapshotError] wraps its cause.  [TypeError]
    is what [JSON.stringify] throws, and [Thrown v] is any exception this
    module does not know by class. *)
Inductive JsError : Type :=
| FixtureAnonymousFunctionError
| FixtureSnapshotError (cause : JsError)
| InvalidSnapshotError
| TypeError
| Thrown (v : JsValue).

Inductive Result (A : Type) : Type :=
| Ok (a : A)
| Throw (e : JsError).

Arguments Ok {A} a.
Arguments Throw {A} e.

(** [e instanceof InvalidSnapshotError] *)
Definition instanceof_InvalidSnapshotError (e : JsError) : bool :=
  match e with InvalidSnapshotError => true | _ => false end.

End Js.
Export Js.

(** ** JSON.stringify *)

Module JSON.

Definition quote_char : ascii := ascii_of_nat 34.
Definition backslash : ascii := ascii_of_nat 92.

Definition hex_digit (n : nat) : ascii :=
  if Nat.ltb n 10 then ascii_of_nat (48 + n) else ascii_of_nat (87 + n).

(** One code unit of a string inside a JSON string literal. *)
Definition escape (c : ascii) : string :=
  let n := nat_of_ascii c in
  if Nat.eqb n 34 then String backslash (String quote_char EmptyString)
  else if Nat.eqb n 92 then String backslash (String backslash EmptyString)
  else if Nat.eqb n 8 then String backslash "b"
  else if Nat.eqb n 9 then String backslash "t"
  else if Nat.eqb n 10 then String backslash "n"
  else if Nat.eqb n 12 then String backslash "f"
  else if Nat.eqb n 13 then String backslash "r"
  else if Nat.ltb n 32 then
    String backslash
      ("u00" ++ String (hex_digit (Nat.div n 16))
                  (String (hex_digit (Nat.modulo n 16)) EmptyString))
  else String c EmptyString.

Fixpoint escape_all (s : string) : string :=
  match s with
  | EmptyString => EmptyString
  | String c rest => escape c ++ escape_all rest
  end.

(** QuoteJSONString *)
Definition QuoteJSONString (s : string) : string :=
  String quote_char (escape_all s ++ String quote_char EmptyString).

(** Number::toString on an integer: its decimal digits.  This is the text
    JavaScript writes for the safe integers, of magnitude below 2^53; above
    that a number is rounded, and from 10^21 it is written with an
    exponent. *)
Definition number_toString (z : Z) : string :=
  NilZero.string_of_int (Z.to_int z).

Fixpoint join (sep : string) (parts : list string) : string :=
  match parts with
  | [] => EmptyString
  | [p] => p
  | p :: rest => p ++ sep ++ join sep rest
  end.

(** SerializeJSONProperty, with SerializeJSONArray and SerializeJSONObject
    inlined.  [Ok None] is the result [undefined]; in an array it is written
    [null], in an object the property is left out.  A BigInt and a circular
    reference throw a TypeError; the elements are visited left to right and
    the first throw wins. *)
Fixpoint SerializeJSONProperty (v : JsValue) : Result (option string) :=
  match v with
  | JUndefined => Ok None
  | JNull => Ok (Some "null")
  | JBoolean true => Ok (Some "true")
  | JBoolean false => Ok (Some "false")
  | JNumber (Finite z) => Ok (Some (number_toString z))
  | JNumber _ => Ok (Some "null")
  | JBigInt _ => Throw TypeError
  | JString s => Ok (Some (QuoteJSONString s))
  | JSymbol _ => Ok None
  | JFunction _ => Ok None
  | JArray elements =>
      let fix SerializeJSONArray (l : list JsValue) : Result (list string) :=
        match l with
        | [] => Ok []
        | x :: rest =>
            match SerializeJSONProperty x with
            | Throw e => Throw e
            | Ok strP =>
                match SerializeJSONArray rest with
                | Throw e => Throw e
                | Ok partial =>
                    Ok (match strP with
                        | None => "null"
                        | Some str => str
                        end :: partial)
                end
            end
        end in
      match SerializeJSONArray elements with
      | Throw e => Throw e
      | Ok partial => Ok (Some ("[" ++ join "," partial ++ "]"))
      end
  | JObject properties =>
      let fix SerializeJSONObject (l : list (string * JsValue))
        : Result (list string) :=
        match l with
        | [] => Ok []
        | (P, x) :: rest =>
            match SerializeJSONProperty x with
            | Throw e => Throw e
            | Ok strP =>
                match SerializeJSONObject rest with
                | Throw e => Throw e
                | Ok partial =>
                    Ok (match strP with
                        | None => partial
                        | Some str =>
                            (QuoteJSONString P ++ ":" ++ str) :: partial
                        end)
                end
            end
        end in
      match SerializeJSONObject properties with
      | Throw e => Throw e
      | Ok partial => Ok (Some ("{" ++ join "," partial ++ "}"))
      end
  | JCircular => Throw TypeError
  end.

(** SerializeJSONArray: the texts of the elements, [null] for one that has
    none. *)
Fixpoint SerializeJSONArray (l : list JsValue) : Result (list string) :=
  match l with
  | [] => Ok []
  | x :: rest =>
      match SerializeJSONProperty x with
      | Throw e => Throw e
      | Ok strP =>
          match SerializeJSONArray rest with
          | Throw e => Throw e
          | Ok partial =>
              Ok (match strP with
                  | None => "null"
                  | Some str => str
                  end :: partial)
          end
      end
  end.

(** SerializeJSONObject: the members, without those whose value has no
    text. *)
Fixpoint SerializeJSONObject (l : list (string * JsValue))
  : Result (list string) :=
  match l with
  | [] => Ok []
  | (P, x) :: rest =>
      match SerializeJSONProperty x with
      | Throw e => Throw e
      | Ok strP =>
          match SerializeJSONObject rest with
          | Throw e => Throw e
          | Ok partial =>
              Ok (match strP with
                  | None => partial
                  | Some str => (QuoteJSONString P ++ ":" ++ str) :: partial
                  end)
          end
      end
  end.

(** [JSON.stringify(value)] with no replacer and no indentation. *)
Definition stringify (value : JsValue) : Result (option string) :=
  SerializeJSONProperty value.

(** The inverse of [escape] at the head of a text: the code unit that the
    next escape sequence stands for and the rest of the text, nothing at an
    unescaped quote or at a sequence [escape] does not write. *)
Definition hex_value (c : ascii) : nat :=
  let n := nat_of_ascii c in
  if Nat.ltb n 58 then n - 48 else n - 87.

Definition read_escaped (s : string) : option (ascii * string) :=
  match s with
  | EmptyString => None
  | String c rest =>
      if Nat.eqb (nat_of_ascii c) 34 then None
      else if Nat.eqb (nat_of_ascii c) 92 then
        match rest with
        | EmptyString => None
        | String d rest' =>
            let m := nat_of_ascii d in
            if Nat.eqb m 34 then Some (ascii_of_nat 34, rest')
            else if Nat.eqb m 92 then Some (ascii_of_nat 92, rest')
            else if Nat.eqb m 98 then Some (ascii_of_nat 8, rest')
            else if Nat.eqb m 116 then Some (ascii_of_nat 9, rest')
            else if Nat.eqb m 110 then Some (ascii_of_nat 10, rest')
            else if Nat.eqb m 102 then Some (ascii_of_nat 12, rest')
            else if Nat.eqb m 114 then Some (ascii_of_nat 13, rest')
            else if Nat.eqb m 117 then
              match rest' with
              | String _ (String _ (String h (String l rest''))) =>
                  Some (ascii_of_nat (16 * hex_value h + hex_value l), rest'')
              | _ => None
              end
            else None
        end
      else Some (c, rest)
  end.

End JSON.

Local Open Scope list_scope.

(** ** The module state and its effects *)

Section LoadFixture.

(** The state of the test network. *)
Context {World : Type}.

(** Modelled from the spec: [SnapshotRestorer] of [./helpers/takeSnapshot],
    which is not among the sources; it has a numeric-like [snapshotId] and a
    [restore()] that returns nothing or throws.  This module reads the id
    only through [Number(restorer.snapshotId)], so the field holds that
    number; it is [NaN] for an id that is not numeric. *)
Record SnapshotRestorer : Type := {
  snapshotId : JsNumber;
  restore : World -> Result unit * World
}.

(** [takeSnapshot] of [./helpers/takeSnapshot], a parameter. *)
Context (takeSnapshot : World -> Result SnapshotRestorer * World).

(** [type Fixture<T> = (...args: any[]) => Promise<T>]: a function object,
    with its [name] property and what a call does.  Here a call reads its
    arguments; [ByReference.Fixture] is the fixture that may write to
    them. *)
Record Fixture : Type := {
  name : string;
  call : list JsValue -> World -> Result JsValue * World
}.

(** [interface Snapshot<T>].  Here [args] is what the array held when it
    was stored; [ByReference.Snapshot] keeps the array itself. *)
Record Snapshot : Type := {
  restorer : SnapshotRestorer;
  fixture : Fixture;
  args : list JsValue;
  data : JsValue
}.

(** The calls this module makes into other code, in the order it makes them.
    The log is not in the source; it is what lets a statement say that a
    fixture was, or was not, run. *)
Inductive Event : Type :=
| CallFixture (name : string) (args : list JsValue)
| CallRestore (id : JsNumber)
| CallTakeSnapshot.

(** [snapshots] is the module-level [let snapshots: Array<Snapshot<any>>]. *)
Record State : Type := {
  snapshots : list Snapshot;
  world : World;
  trace : list Event
}.

Definition initial (w : World) : State :=
  {| snapshots := []; world := w; trace := [] |}.

Definition set_world (w : World) (st : State) : State :=
  {| snapshots := snapshots st; world := w; trace := trace st |}.

(** A computation over the module state that returns or throws. *)
Definition M (A : Type) : Type := State -> Result A * State.

Definition ret {A} (a : A) : M A := fun st => (Ok a, st).

Definition throw {A} (e : JsError) : M A := fun st => (Throw e, st).

Definition bind {A B} (m : M A) (k : A -> M B) : M B :=
  fun st =>
    match m st with
    | (Ok a, st') => k a st'
    | (Throw e, st') => (Throw e, st')
    end.

(** [try { m } catch (e) { handler e }] *)
Definition try_catch {A} (m : M A) (handler : JsError -> M A) : M A :=
  fun st =>
    match m st with
    | (Ok a, st') => (Ok a, st')
    | (Throw e, st') => handler e st'
    end.

Definition lift {A} (r : Result A) : M A := fun st => (r, st).

Definition get_snapshots : M (list Snapshot) :=
  fun st => (Ok (snapshots st), st).

Definition set_snapshots (l : list Snapshot) : M unit :=
  fun st => (Ok tt, {| snapshots := l; world := world st; trace := trace st |}).

(** [await r.restore()] *)
Definition await_restore (r : SnapshotRestorer) : M unit :=
  fun st =>
    let (res, w) := restore r (world st) in
    (res, {| snapshots := snapshots st; world := w;
             trace := trace st ++ [CallRestore (snapshotId r)] |}).

(** [await fixture(...args)] *)
Definition await_fixture (f : Fixture) (a : list JsValue) : M JsValue :=
  fun st =>
    let (res, w) := call f a (world st) in
    (res, {| snapshots := snapshots st; world := w;
             trace := trace st ++ [CallFixture (name f) a] |}).

(** [await takeSnapshot()] *)
Definition await_takeSnapshot : M SnapshotRestorer :=
  fun st =>
    let (res, w) := takeSnapshot (world st) in
    (res, {| snapshots := snapshots st; world := w;
             trace := trace st ++ [CallTakeSnapshot] |}).

Notation "x <- m ;; k" := (bind m (fun x => k))
  (at level 100, m at next level, right associativity).
Notation "m ;;; k" := (bind m (fun _ => k))
  (at level 100, right associativity).

(** [Array.prototype.find] with a callback that may throw: the elements are
    tried in order, and a throw of the callback ends the search. *)
Fixpoint Array_find {A} (callback : A -> Result bool) (l : list A)
  : Result (option A) :=
  match l with
  | [] => Ok None
  | x :: rest =>
      match callback x with
      | Throw e => Throw e
      | Ok true => Ok (Some x)
      | Ok false => Array_find callback rest
      end
  end.

(** [===] on the results of [JSON.stringify], a string or [undefined]. *)
Definition strict_eq (a b : option string) : bool :=
  match a, b with
  | Some x, Some y => String.eqb x y
  | None, None => true
  | _, _ => false
  end.

(** [JSON.stringify([name, args])] *)
Definition key (fname : string) (a : list JsValue) : Result (option string) :=
  JSON.stringify (JArray [JString fname; JArray a]).

(** [(s) => JSON.stringify([s.fixture.name, s.args]) === cacheKey] *)
Definition matches (cacheKey : option string) (s : Snapshot) : Result bool :=
  match key (name (fixture s)) (args s) with
  | Throw e => Throw e
  | Ok k => Ok (strict_eq k cacheKey)
  end.

(** [loadFixture(fixture, args)] *)
Definition loadFixture (fixture : Fixture) (args : list JsValue) : M JsValue :=
  if String.eqb (name fixture) "" then throw FixtureAnonymousFunctionError
  else
    cacheKey <- lift (key (name fixture) args) ;;
    all <- get_snapshots ;;
    snapshot <- lift (Array_find (matches cacheKey) all) ;;
    match snapshot with
    | Some snapshot =>
        try_catch
          (await_restore (restorer snapshot) ;;;
           all <- get_snapshots ;;
           set_snapshots
             (filter
                (fun s =>
                   num_le (snapshotId (restorer s))
                          (snapshotId (restorer snapshot)))
                all))
          (fun e =>
             if instanceof_InvalidSnapshotError e
             then throw (FixtureSnapshotError e)
             else throw e) ;;;
        ret (data snapshot)
    | None =>
        data <- await_fixture fixture args ;;
        restorer <- await_takeSnapshot ;;
        all <- get_snapshots ;;
        set_snapshots
          (all ++ [{| restorer := restorer; fixture := fixture;
                      args := args; data := data |}]) ;;;
        ret data
    end.

(** [clearSnapshots()] *)
Definition clearSnapshots : M unit := set_snapshots [].

(** ** Vocabulary of the statements *)

(** The cache key of a stored record, as [find] computes it. *)
Definition cacheKey_of (s : Snapshot) : Result (option string) :=
  key (name (fixture s)) (args s).

(** No record of the cache is stored under the key [k]. *)
Definition not_cached (k : option string) (cache : list Snapshot) : Prop :=
  Forall (fun s => exists k', cacheKey_of s = Ok k' /\ k' <> k) cache.

(** [Number(s.restorer.snapshotId)] *)
Definition id_of (s : Snapshot) : JsNumber := snapshotId (restorer s).

(** The states the module can be in: it starts with an empty array, the
    exported functions are called one after the other, and between two calls
    the tests act on the network. *)
Inductive reachable : State -> Prop :=
| reachable_initial w : reachable (initial w)
| reachable_loadFixture st f a :
    reachable st -> reachable (snd (loadFixture f a st))
| reachable_clearSnapshots st :
    reachable st -> reachable (snd (clearSnapshots st))
| reachable_network st w :
    reachable st -> reachable (set_world w st).

(** What every reachable cache satisfies: each record was stored by a named
    fixture under a key that serializes, and no two records share a key. *)
Definition cache_wf (cache : list Snapshot) : Prop :=
  Forall (fun s => name (fixture s) <> "" /\ exists k, cacheKey_of s = Ok k)
         cache
  /\ NoDup (map cacheKey_of cache).

(** The eight ways a call [loadFixture(f, a)] made in the state [st] can
    end, each with what it returns or throws and the state it leaves. *)
Inductive outcome (f : Fixture) (a : list JsValue) (st : State)
  : Result JsValue * State -> Prop :=
| outcome_anonymous :
    name f = "" ->
    outcome f a st (Throw FixtureAnonymousFunctionError, st)
| outcome_key_throws e :
    name f <> "" -> key (name f) a = Throw e ->
    outcome f a st (Throw e, st)
| outcome_find_throws k e :
    name f <> "" -> key (name f) a = Ok k ->
    Array_find (matches k) (snapshots st) = Throw e ->
    outcome f a st (Throw e, st)
| outcome_restored k s w :
    name f <> "" -> key (name f) a = Ok k ->
    Array_find (matches k) (snapshots st) = Ok (Some s) ->
    restore (restorer s) (world st) = (Ok tt, w) ->
    outcome f a st
      (Ok (data s),
       {| snapshots :=
            filter (fun t => num_le (id_of t) (id_of s)) (snapshots st);
          world := w;
          trace := trace st ++ [CallRestore (id_of s)] |})
| outcome_restore_throws k s e w :
    name f <> "" -> key (name f) a = Ok k ->
    Array_find (matches k) (snapshots st) = Ok (Some s) ->
    restore (restorer s) (world st) = (Throw e, w) ->
    outcome f a st
      (Throw (if instanceof_InvalidSnapshotError e
              then FixtureSnapshotError e else e),
       {| snapshots := snapshots st; world := w;
          trace := trace st ++ [CallRestore (id_of s)] |})
| outcome_fixture_throws k e w1 :
    name f <> "" -> key (name f) a = Ok k ->
    Array_find (matches k) (snapshots st) = Ok None ->
    call f a (world st) = (Throw e, w1) ->
    outcome f a st
      (Throw e,
       {| snapshots := snapshots st; world := w1;
          trace := trace st ++ [CallFixture (name f) a] |})
| outcome_takeSnapshot_throws k d e w1 w2 :
    name f <> "" -> key (name f) a = Ok k ->
    Array_find (matches k) (snapshots st) = Ok None ->
    call f a (world st) = (Ok d, w1) ->
    takeSnapshot w1 = (Throw e, w2) ->
    outcome f a st
      (Throw e,
       {| snapshots := snapshots st; world := w2;
          trace := trace st ++ [CallFixture (name f) a; CallTakeSnapshot] |})
| outcome_stored k d r w1 w2 :
    name f <> "" -> key (name f) a = Ok k ->
    Array_find (matches k) (snapshots st) = Ok None ->
    call f a (world st) = (Ok d, w1) ->
    takeSnapshot w1 = (Ok r, w2) ->
    outcome f a st
      (Ok d,
       {| snapshots :=
            snapshots st ++
              [{| restorer := r; fixture := f; args := a; data := d |}];
          world := w2;
          trace := trace st ++ [CallFixture (name f) a; CallTakeSnapshot] |}).

(** The ids grow along the array: every record has a greater id than the
    records before it. *)
Definition ids_increasing (cache : list Snapshot) : Prop :=
  forall pre x mid y post,
    cache = pre ++ x :: mid ++ y :: post ->
    num_gt (id_of y) (id_of x) = true.

End LoadFixture.

Arguments SnapshotRestorer World : clear implicits.
Arguments Fixture World : clear implicits.
Arguments Snapshot World : clear implicits.
Arguments State World : clear implicits.
Arguments M World A : clear implicits.

(** ** The module on arguments passed by reference *)

(** [loadFixture] again, this time with the argument array as the object it
    is in the source: [snapshots.push] stores the caller's array itself, and
    [find] serializes whatever that array holds at the time of the search.
    An array is a reference [Ref]; the JavaScript heap is part of [World],
    and [deref w r] is what the array [r] holds, in depth, in the world [w].
    Any code outside this module that runs (a fixture, a restorer,
    [takeSnapshot], the tests between two calls) may write to the objects an
    array holds.  Section [LoadFixture] above is the case in which nothing
    does: there a reference is the value it holds. *)
Module ByReference.

Section LoadFixture.

Context {World Ref : Type}.
Context (deref : World -> Ref -> list JsValue).
Context (takeSnapshot : World -> Result (SnapshotRestorer World) * World).

(** A fixture gets the elements of the array [r] and may write to them. *)
Record Fixture : Type := {
  name : string;
  call : Ref -> World -> Result JsValue * World
}.

Record Snapshot : Type := {
  restorer : SnapshotRestorer World;
  fixture : Fixture;
  args : Ref;
  data : JsValue
}.

Record State : Type := {
  snapshots : list Snapshot;
  world : World;
  trace : list Event
}.

Definition initial (w : World) : State :=
  {| snapshots := []; world := w; trace := [] |}.

Definition set_world (w : World) (st : State) : State :=
  {| snapshots := snapshots st; world := w; trace := trace st |}.

Definition M (A : Type) : Type := State -> Result A * State.

Definition ret {A} (a : A) : M A := fun st => (Ok a, st).

Definition throw {A} (e : JsError) : M A := fun st => (Throw e, st).

Definition bind {A B} (m : M A) (k : A -> M B) : M B :=
  fun st =>
    match m st with
    | (Ok a, st') => k a st'
    | (Throw e, st') => (Throw e, st')
    end.

Definition try_catch {A} (m : M A) (handler : JsError -> M A) : M A :=
  fun st =>
    match m st with
    | (Ok a, st') => (Ok a, st')
    | (Throw e, st') => handler e st'
    end.

Definition lift {A} (r : Result A) : M A := fun st => (r, st).

Definition get_snapshots : M (list Snapshot) :=
  fun st => (Ok (snapshots st), st).

Definition set_snapshots (l : list Snapshot) : M unit :=
  fun st => (Ok tt, {| snapshots := l; world := world st; trace := trace st |}).

(** The world, heap included, as it is now. *)
Definition get_world : M World := fun st => (Ok (world st), st).

Definition await_restore (r : SnapshotRestorer World) : M unit :=
  fun st =>
    let (res, w) := restore r (world st) in
    (res, {| snapshots := snapshots st; world := w;
             trace := trace st ++ [CallRestore (snapshotId r)] |}).

(** [await fixture(...args)]; the log keeps what the array held at the
    call. *)
Definition await_fixture (f : Fixture) (a : Ref) : M JsValue :=
  fun st =>
    let (res, w) := call f a (world st) in
    (res, {| snapshots := snapshots st; world := w;
             trace := trace st ++
                      [CallFixture (name f) (deref (world st) a)] |}).

Definition await_takeSnapshot : M (SnapshotRestorer World) :=
  fun st =>
    let (res, w) := takeSnapshot (world st) in
    (res, {| snapshots := snapshots st; world := w;
             trace := trace st ++ [CallTakeSnapshot] |}).

Notation "x <- m ;; k" := (bind m (fun x => k))
  (at level 100, m at next level, right associativity).
Notation "m ;;; k" := (bind m (fun _ => k))
  (at level 100, right associativity).

(** [(s) => JSON.stringify([s.fixture.name, s.args]) === cacheKey], in the
    world [w]. *)
Definition matches (w : World) (cacheKey : option string) (s : Snapshot)
  : Result bool :=
  match key (name (fixture s)) (deref w (args s)) with
  | Throw e => Throw e
  | Ok k => Ok (strict_eq k cacheKey)
  end.

(** [Number(s.restorer.snapshotId)] *)
Definition id_of (s : Snapshot) : JsNumber := snapshotId (restorer s).

(** [loadFixture(fixture, args)] *)
Definition loadFixture (fixture : Fixture) (args : Ref) : M JsValue :=
  if String.eqb (name fixture) "" then throw FixtureAnonymousFunctionError
  else
    heap <- get_world ;;
    cacheKey <- lift (key (name fixture) (deref heap args)) ;;
    all <- get_snapshots ;;
    snapshot <- lift (Array_find (matches heap cacheKey) all) ;;
    match snapshot with
    | Some snapshot =>
        try_catch
          (await_restore (restorer snapshot) ;;;
           all <- get_snapshots ;;
           set_snapshots
             (filter (fun s => num_le (id_of s) (id_of snapshot)) all))
          (fun e =>
             if instanceof_InvalidSnapshotError e
             then throw (FixtureSnapshotError e)
             else throw e) ;;;
        ret (data snapshot)
    | None =>
        data <- await_fixture fixture args ;;
        restorer <- await_takeSnapshot ;;
        all <- get_snapshots ;;
        set_snapshots
          (all ++ [{| restorer := restorer; fixture := fixture;
                      args := args; data := data |}]) ;;;
        ret data
    end.

(** [clearSnapshots()] *)
Definition clearSnapshots : M unit := set_snapshots [].

(** *** Vocabulary *)

(** The JSON text of what the array [r] holds in the world [w]. *)
Definition text (w : World) (r : Ref) : Result (option string) :=
  JSON.stringify (JArray (deref w r)).

(** The cache key of a stored record in the world [w]. *)
Definition cacheKey_of (w : World) (s : Snapshot) : Result (option string) :=
  key (name (fixture s)) (deref w (args s)).

(** The pair (fixture identity, serialized args) of a stored record in the
    world [w]. *)
Definition identity_of (w : World) (s : Snapshot)
  : string * Result (option string) :=
  (name (fixture s), text w (args s)).

(** At most one record per (fixture identity, serialized args) pair. *)
Definition one_record_per_identity (w : World) (cache : list Snapshot) : Prop :=
  NoDup (map (identity_of w) cache).

(** The arrays [refs] read in [w'] as they read in [w]: nothing that ran in
    between has changed their JSON text. *)
Definition texts_kept (w w' : World) (refs : list Ref) : Prop :=
  Forall (fun r => text w' r = text w r) refs.

(** No stored record has the fixture name [n] together with the arguments
    text of the array [a], and every stored array serializes. *)
Definition never_loaded (w : World) (n : string) (a : Ref)
           (cache : list Snapshot) : Prop :=
  Forall (fun s =>
            (exists t, text w (args s) = Ok t)
            /\ (name (fixture s) <> n \/ text w (args s) <> text w a))
         cache.

(** The states the module can be in. *)
Inductive reachable : State -> Prop :=
| reachable_initial w : reachable (initial w)
| reachable_loadFixture st f a :
    reachable st -> reachable (snd (loadFixture f a st))
| reachable_clearSnapshots st :
    reachable st -> reachable (snd (clearSnapshots st))
| reachable_network st w :
    reachable st -> reachable (set_world w st).

(** The states the module can be in when no call and nothing between the
    calls has changed the JSON text of an array in use: the array of the
    call and the arrays of the stored records. *)
Inductive undisturbed : State -> Prop :=
| undisturbed_initial w : undisturbed (initial w)
| undisturbed_loadFixture st f a :
    undisturbed st ->
    texts_kept (world st) (world (snd (loadFixture f a st)))
               (a :: map args (snapshots st)) ->
    undisturbed (snd (loadFixture f a st))
| undisturbed_clearSnapshots st :
    undisturbed st -> undisturbed (snd (clearSnapshots st))
| undisturbed_network st w :
    undisturbed st ->
    texts_kept (world st) w (map args (snapshots st)) ->
    undisturbed (set_world w st).

(** Each record was stored by a named fixture, its array serializes, and no
    two records share a key, all in the world [w]. *)
Definition cache_wf (w : World) (cache : list Snapshot) : Prop :=
  Forall (fun s => name (fixture s) <> ""
                   /\ exists k, cacheKey_of w s = Ok k) cache
  /\ NoDup (map (cacheKey_of w) cache).

(** Where a stored record comes from: its fixture, called on its array in
    some world, returned its data, and its restorer is the snapshot taken
    of the world the fixture left. *)
Definition stored_by_a_run (s : Snapshot) : Prop :=
  exists w w1 w2,
    call (fixture s) (args s) w = (Ok (data s), w1)
    /\ takeSnapshot w1 = (Ok (restorer s), w2).

End LoadFixture.

Arguments Fixture World Ref : clear implicits.
Arguments Snapshot World Ref : clear implicits.
Arguments State World Ref : clear implicits.
Arguments M World Ref A : clear implicits.

End ByReference.

(** A fixture of section [LoadFixture] as a fixture that gets its arguments
    by reference, and likewise a record and a state, when a reference is
    the value it holds. *)
Definition by_value {World} (f : Fixture World)
  : ByReference.Fixture World (list JsValue) :=
  {| ByReference.name := name f; ByReference.call := call f |}.

Definition by_value_snapshot {World} (s : Snapshot World)
  : ByReference.Snapshot World (list JsValue) :=
  {| ByReference.restorer := restorer s;
     ByReference.fixture := by_value (fixture s);
     ByReference.args := args s;
     ByReference.data := data s |}.

Definition by_value_state {World} (st : State World)
  : ByReference.State World (list JsValue) :=
  {| ByReference.snapshots := map by_value_snapshot (snapshots st);
     ByReference.world := world st;
     ByReference.trace := trace st |}.

(** ** Values that [JSON.stringify] refuses or flattens *)

(** A circular reference or a BigInt somewhere inside the value. *)
Fixpoint unserializable (v : JsValue) : bool :=
  match v with
  | JCircular => true
  | JBigInt _ => true
  | JArray elements => existsb unserializable elements
  | JObject properties =>
      existsb (fun p => unserializable (snd p)) properties
  | _ => false
  end.

(** The values [JSON.stringify] has no text for: as an array element they are
    written [null]. *)
Definition flattened (v : JsValue) : bool :=
  match v with
  | JUndefined | JFunction _ | JSymbol _ => true
  | JNumber NaN | JNumber NegInfinity | JNumber PosInfinity => true
  | _ => false
  end.

(** ** A small network to run the module on *)

Module Toy.

(** A chain is its height; snapshot ids are handed out in increasing order. *)
Record Net : Type := { height : Z; next_id : Z }.

Definition genesis : Net := {| height := 0; next_id := 1 |}.

(** The restorer of the snapshot [id], taken at height [h]: it puts the
    height back. *)
Definition snapshot_at (h id : Z) : SnapshotRestorer Net :=
  {| snapshotId := Finite id;
     restore := fun w => (Ok tt, {| height := h; next_id := next_id w |}) |}.

Definition takeSnapshot (w : Net) : Result (SnapshotRestorer Net) * Net :=
  (Ok (snapshot_at (height w) (next_id w)),
   {| height := height w; next_id := next_id w + 1 |}).

(** Mines as many blocks as its first argument says (one without it) and
    returns the new height. *)
Definition mine (a : list JsValue) (w : Net) : Result JsValue * Net :=
  let n := match a with JNumber (Finite n) :: _ => n | _ => 1 end in
  (Ok (JNumber (Finite (height w + n))),
   {| height := height w + n; next_id := next_id w |}).

Definition deploy : Fixture Net := {| name := "deploy"; call := mine |}.
Definition deployToken : Fixture Net :=
  {| name := "deployToken"; call := mine |}.
Definition anonymous : Fixture Net := {| name := ""; call := mine |}.

(** A restorer whose snapshot the node no longer has. *)
Definition stale : SnapshotRestorer Net :=
  {| snapshotId := Finite 1;
     restore := fun w => (Throw InvalidSnapshotError, w) |}.

(** A restorer whose request to the node fails. *)
Definition unplugged : SnapshotRestorer Net :=
  {| snapshotId := Finite 1;
     restore := fun w => (Throw (Thrown (JString "ECONNREFUSED")), w) |}.

Definition loadFixture := loadFixture takeSnapshot.

Definition run {A} (m : M Net A) (st : State Net) : State Net := snd (m st).

Definition hundred : list JsValue := [JNumber (Finite 100)].
Definition two_hundred : list JsValue := [JNumber (Finite 200)].

(** The key of [deploy] with [hundred], with [two_hundred] and of
    [deployToken] with no argument. *)
Definition key_hundred : option string :=
  Eval vm_compute in
    match key "deploy" hundred with Ok k => k | Throw _ => None end.
Definition key_two_hundred : option string :=
  Eval vm_compute in
    match key "deploy" two_hundred with Ok k => k | Throw _ => None end.
Definition key_token : option string :=
  Eval vm_compute in
    match key "deployToken" [] with Ok k => k | Throw _ => None end.

(** The records the runs below store. *)
Definition deploy_record : Snapshot Net :=
  {| restorer := snapshot_at 100 1; fixture := deploy; args := hundred;
     data := JNumber (Finite 100) |}.
Definition token_record : Snapshot Net :=
  {| restorer := snapshot_at 101 2; fixture := deployToken; args := [];
     data := JNumber (Finite 101) |}.
Definition second_record : Snapshot Net :=
  {| restorer := snapshot_at 300 2; fixture := deploy; args := two_hundred;
     data := JNumber (Finite 300) |}.

(** [loadFixture(deploy, [100])] on a fresh module. *)
Definition once : State Net := run (loadFixture deploy hundred) (initial genesis).

(** ... followed by [loadFixture(deployToken)]. *)
Definition twice : State Net := run (loadFixture deployToken []) once.

Definition stale_record : Snapshot Net :=
  {| restorer := stale; fixture := deploy; args := hundred;
     data := JNumber (Finite 100) |}.
Definition unplugged_record : Snapshot Net :=
  {| restorer := unplugged; fixture := deploy; args := hundred;
     data := JNumber (Finite 100) |}.

(** A cache whose only record has lost its snapshot. *)
Definition with_stale : State Net :=
  {| snapshots := [stale_record]; world := genesis; trace := [] |}.

(** A cache whose only record cannot reach the node. *)
Definition with_unplugged : State Net :=
  {| snapshots := [unplugged_record]; world := genesis; trace := [] |}.

(** [loadFixture(deploy, [null])] on a fresh module, its key and the record
    it stores. *)
Definition with_null : State Net :=
  run (loadFixture deploy [JNull]) (initial genesis).
Definition key_null : option string :=
  Eval vm_compute in
    match key "deploy" [JNull] with Ok k => k | Throw _ => None end.
Definition null_record : Snapshot Net :=
  {| restorer := snapshot_at 1 1; fixture := deploy; args := [JNull];
     data := JNumber (Finite 1) |}.

(** An argument list that holds a function, and one that holds an object
    with a reference to itself. *)
Definition with_callback : list JsValue := [JFunction "setup"].
Definition with_cycle : list JsValue := [JObject [("self", JCircular)]].

(** ... followed by [loadFixture(deploy, [200])], and the record it stores. *)
Definition thrice : State Net := run (loadFixture deploy two_hundred) twice.
Definition third_record : Snapshot Net :=
  {| restorer := snapshot_at 301 3; fixture := deploy; args := two_hundred;
     data := JNumber (Finite 301) |}.

Definition key_broken : option string :=
  Eval vm_compute in
    match key "broken" [] with Ok k => k | Throw _ => None end.

(** A fixture that mines a block and then reverts with an exception. *)
Definition broken : Fixture Net :=
  {| name := "broken";
     call := fun _ w =>
       (Throw (Thrown (JString "revert")),
        {| height := height w + 1; next_id := next_id w |}) |}.

(** A node that refuses to take snapshots. *)
Definition offline (w : Net) : Result (SnapshotRestorer Net) * Net :=
  (Throw (Thrown (JString "ECONNREFUSED")), w).

(** A record whose snapshot id is not numeric, and a cache that holds it
    behind [deploy_record]. *)
Definition odd_record : Snapshot Net :=
  {| restorer := {| snapshotId := NaN; restore := fun w => (Ok tt, w) |};
     fixture := deployToken; args := [];
     data := JNumber (Finite 7) |}.
Definition with_odd : State Net :=
  {| snapshots := [deploy_record; odd_record]; world := genesis; trace := [] |}.

End Toy.

(** ** A small network with a heap *)

Module ToyHeap.

(** The chain of [Toy] and a heap of argument arrays: the array [r] is the
    [r]-th cell, and a cell holds what the array holds. *)
Record Node : Type := { net : Toy.Net; cells : list (list JsValue) }.

Definition deref (w : Node) (r : nat) : list JsValue := nth r (cells w) [].

Fixpoint write (r : nat) (held : list JsValue) (c : list (list JsValue))
  : list (list JsValue) :=
  match c, r with
  | [], _ => []
  | _ :: rest, O => held :: rest
  | x :: rest, S r' => x :: write r' held rest
  end.

(** [o[k] = v] on the properties of an object. *)
Fixpoint set_property (k : string) (v : JsValue)
         (ps : list (string * JsValue)) : list (string * JsValue) :=
  match ps with
  | [] => [(k, v)]
  | (k', v') :: rest =>
      if String.eqb k' k then (k, v) :: rest
      else (k', v') :: set_property k v rest
  end.

(** Snapshots are of the chain; the heap is not part of them. *)
Definition snapshot_at (h id : Z) : SnapshotRestorer Node :=
  {| snapshotId := Finite id;
     restore := fun w =>
       (Ok tt,
        {| net := {| Toy.height := h; Toy.next_id := Toy.next_id (net w) |};
           cells := cells w |}) |}.

Definition takeSnapshot (w : Node) : Result (SnapshotRestorer Node) * Node :=
  (Ok (snapshot_at (Toy.height (net w)) (Toy.next_id (net w))),
   {| net := {| Toy.height := Toy.height (net w);
                Toy.next_id := Toy.next_id (net w) + 1 |};
      cells := cells w |}).

(** [async function init(options) { mine(); options.ready = true; return
    height }]: it writes to the object it is given. *)
Definition init : ByReference.Fixture Node nat :=
  {| ByReference.name := "init";
     ByReference.call := fun r w =>
       let held :=
         match deref w r with
         | JObject ps :: rest =>
             JObject (set_property "ready" (JBoolean true) ps) :: rest
         | other => other
         end in
       (Ok (JNumber (Finite (Toy.height (net w) + 1))),
        {| net := {| Toy.height := Toy.height (net w) + 1;
                     Toy.next_id := Toy.next_id (net w) |};
           cells := write r held (cells w) |}) |}.

(** [Toy.mine] on what the array holds; it writes to nothing. *)
Definition mine : ByReference.Fixture Node nat :=
  {| ByReference.name := "mine";
     ByReference.call := fun r w =>
       let (res, n) := Toy.mine (deref w r) (net w) in
       (res, {| net := n; cells := cells w |}) |}.

(** The arrays [[{}]], [[{}]], [[100]], [[100]] and [[200]], all distinct
    objects, on a fresh chain. *)
Definition start : Node :=
  {| net := Toy.genesis;
     cells := [[JObject []]; [JObject []]; Toy.hundred; Toy.hundred;
               Toy.two_hundred] |}.

Definition loadFixture := ByReference.loadFixture deref takeSnapshot.

(** [loadFixture(init, [{}])] on a fresh module, then the same call with
    another array [[{}]]. *)
Definition once : ByReference.State Node nat :=
  snd (loadFixture init 0%nat (ByReference.initial start)).
Definition twice : ByReference.State Node nat :=
  snd (loadFixture init 1%nat once).

(** [loadFixture(mine, [100])] after [once]. *)
Definition mined : ByReference.State Node nat :=
  snd (loadFixture mine 2%nat once).

Definition key_mine_hundred : option string :=
  Eval vm_compute in
    match key "mine" Toy.hundred with Ok k => k | Throw _ => None end.

(** [loadFixture(mine, [100])] on a fresh module, and the record it
    stores. *)
Definition quiet : ByReference.State Node nat :=
  snd (loadFixture mine 2%nat (ByReference.initial start)).
Definition quiet_record : ByReference.Snapshot Node nat :=
  {| ByReference.restorer := snapshot_at 100 1;
     ByReference.fixture := mine;
     ByReference.args := 2%nat;
     ByReference.data := JNumber (Finite 100) |}.

(** The records of [twice]. *)
Definition first_record : ByReference.Snapshot Node nat :=
  {| ByReference.restorer := snapshot_at 1 1;
     ByReference.fixture := init;
     ByReference.args := 0%nat;
     ByReference.data := JNumber (Finite 1) |}.
Definition second_record : ByReference.Snapshot Node nat :=
  {| ByReference.restorer := snapshot_at 2 2;
     ByReference.fixture := init;
     ByReference.args := 1%nat;
     ByReference.data := JNumber (Finite 2) |}.

End ToyHeap.

(** ** Properties of JSON.stringify *)

Section JsValue_induction.

Variable P : JsValue -> Prop.
Hypothesis P_leaf :
  forall v, (forall l, v <> JArray l) -> (forall ps, v <> JObject ps) -> P v.
Hypothesis P_array : forall l, Forall P l -> P (JArray l).
Hypothesis P_object :
  forall ps, Forall (fun p => P (snd p)) ps -> P (JObject ps).

(** Induction on a value, with the hypothesis for every element of an array
    and every member of an object. *)
Fixpoint JsValue_induction (v : JsValue) : P v.
Proof.
  destruct v as [| | b | n | z | s | d | n | l | ps |].
  9: { apply P_array. induction l as [|x l IH]; constructor.
       - apply JsValue_induction.
       - exact IH. }
  9: { apply P_object. induction ps as [|[q x] ps IH]; constructor.
       - apply JsValue_induction.
       - exact IH. }
  all: apply P_leaf; intros; discriminate.
Defined.

End JsValue_induction.

Module JSONFacts.
Import JSON.

Lemma stringify_array (l : list JsValue) :
  stringify (JArray l) =
    match SerializeJSONArray l with
    | Throw e => Throw e
    | Ok partial => Ok (Some ("[" ++ join "," partial ++ "]")%string)
    end.
Proof. reflexivity. Qed.

Lemma stringify_object (ps : list (string * JsValue)) :
  stringify (JObject ps) =
    match SerializeJSONObject ps with
    | Throw e => Throw e
    | Ok partial => Ok (Some ("{" ++ join "," partial ++ "}")%string)
    end.
Proof. reflexivity. Qed.

Lemma SerializeJSONArray_cons (x : JsValue) (rest : list JsValue) :
  SerializeJSONArray (x :: rest) =
    match stringify x with
    | Throw e => Throw e
    | Ok strP =>
        match SerializeJSONArray rest with
        | Throw e => Throw e
        | Ok partial =>
            Ok (match strP with None => "null"%string | Some str => str end
                :: partial)
        end
    end.
Proof. reflexivity. Qed.

Lemma SerializeJSONObject_cons (q : string) (x : JsValue)
      (rest : list (string * JsValue)) :
  SerializeJSONObject ((q, x) :: rest) =
    match stringify x with
    | Throw e => Throw e
    | Ok strP =>
        match SerializeJSONObject rest with
        | Throw e => Throw e
        | Ok partial =>
            Ok (match strP with
                | None => partial
                | Some str => (QuoteJSONString q ++ ":" ++ str)%string :: partial
                end)
        end
    end.
Proof. reflexivity. Qed.

(** All that JSON.stringify throws is a TypeError. *)
Lemma stringify_throws_TypeError (v : JsValue) e :
  stringify v = Throw e -> e = TypeError.
Proof.
  revert e. induction v as [v Ha Ho | l IH | ps IH] using JsValue_induction;
    intro e.
  - destruct v as [| | [|] | [| | |] | | | | | l | ps |]; simpl;
      try discriminate; try congruence.
    + now contradiction (Ha l).
    + now contradiction (Ho ps).
  - rewrite stringify_array.
    assert (H : forall e, SerializeJSONArray l = Throw e -> e = TypeError).
    { induction IH as [|x l Hx _ IHl]; intro e'; [discriminate|].
      rewrite SerializeJSONArray_cons.
      destruct (stringify x) as [o|ex] eqn:Ex.
      - destruct (SerializeJSONArray l) as [part|el]; [discriminate|].
        intro H. injection H as <-. now apply IHl.
      - intro H. injection H as <-. now apply Hx. }
    destruct (SerializeJSONArray l) as [part|el]; [discriminate|].
    intro E. injection E as <-. now apply H.
  - rewrite stringify_object.
    assert (H : forall e, SerializeJSONObject ps = Throw e -> e = TypeError).
    { induction IH as [|[q x] ps Hx _ IHps]; intro e'; [discriminate|].
      rewrite SerializeJSONObject_cons.
      destruct (stringify x) as [o|ex] eqn:Ex.
      - destruct (SerializeJSONObject ps) as [part|el]; [discriminate|].
        intro H. injection H as <-. now apply IHps.
      - intro H. injection H as <-. now apply Hx. }
    destruct (SerializeJSONObject ps) as [part|el]; [discriminate|].
    intro E. injection E as <-. now apply H.
Qed.

(** A circular reference or a BigInt anywhere inside a value makes
    JSON.stringify throw. *)
Lemma unserializable_throws (v : JsValue) :
  unserializable v = true -> stringify v = Throw TypeError.
Proof.
  induction v as [v Ha Ho | l IH | ps IH] using JsValue_induction.
  - destruct v; simpl; try discriminate; try reflexivity.
    + now contradiction (Ha elements).
    + now contradiction (Ho properties).
  - simpl unserializable. rewrite stringify_array. intro H.
    assert (E : SerializeJSONArray l = Throw TypeError).
    { induction IH as [|x l Hx _ IHl]; [discriminate|].
      rewrite SerializeJSONArray_cons. simpl in H.
      destruct (stringify x) as [o|ex] eqn:Ex.
      - destruct (unserializable x); [now discriminate Hx|].
        simpl in H. now rewrite (IHl H).
      - now rewrite (stringify_throws_TypeError _ _ Ex). }
    now rewrite E.
  - simpl unserializable. rewrite stringify_object. intro H.
    assert (E : SerializeJSONObject ps = Throw TypeError).
    { induction IH as [|[q x] ps Hx _ IHps]; [discriminate|].
      rewrite SerializeJSONObject_cons. simpl in H. simpl in Hx.
      destruct (stringify x) as [o|ex] eqn:Ex.
      - destruct (unserializable x); [now discriminate Hx|].
        simpl in H. now rewrite (IHps H).
      - now rewrite (stringify_throws_TypeError _ _ Ex). }
    now rewrite E.
Qed.

(** As an array element, a value that has no text reads like [null]. *)
Lemma flattened_like_null (pre post : list JsValue) (v : JsValue) :
  flattened v = true ->
  SerializeJSONArray (pre ++ v :: post) =
    SerializeJSONArray (pre ++ JNull :: post).
Proof.
  intro H. induction pre as [|x pre IH].
  - simpl app. rewrite !SerializeJSONArray_cons.
    destruct v as [| | | [| | |] | | | | | | |]; try discriminate; reflexivity.
  - simpl app. rewrite !SerializeJSONArray_cons. now rewrite IH.
Qed.

(** *** Reading a quoted string back *)

Lemma string_app_assoc (x y z : string) :
  ((x ++ y) ++ z = x ++ (y ++ z))%string.
Proof. induction x as [|c x IH]; simpl; [reflexivity | now rewrite IH]. Qed.

Lemma string_app_inv_tail (x y : string) (c : ascii) :
  (x ++ String c EmptyString = y ++ String c EmptyString)%string -> x = y.
Proof.
  revert y. induction x as [|a x IH]; intros [|b y]; simpl; intro H.
  - reflexivity.
  - injection H as _ H. now destruct y.
  - injection H as _ H. now destruct x.
  - injection H as -> H. now rewrite (IH y H).
Qed.

(** [read_escaped] undoes [escape], whatever follows. *)
Lemma read_escaped_escape (c : ascii) (rest : string) :
  read_escaped (escape c ++ rest) = Some (c, rest).
Proof.
  destruct c as [[|] [|] [|] [|] [|] [|] [|] [|]]; reflexivity.
Qed.

Lemma read_escaped_quote (rest : string) :
  read_escaped (String quote_char rest) = None.
Proof. reflexivity. Qed.

(** The escaped text of a string ends at the first unescaped quote: two
    strings whose escaped texts, each followed by a quote, start the same
    text are the same string, and what follows the quotes is the same. *)
Lemma escape_all_prefix_free (n1 n2 rest1 rest2 : string) :
  (escape_all n1 ++ String quote_char rest1 =
   escape_all n2 ++ String quote_char rest2)%string ->
  n1 = n2 /\ rest1 = rest2.
Proof.
  revert n2. induction n1 as [|c1 n1 IH]; intros [|c2 n2]; simpl; intro H.
  - injection H as ->. now split.
  - apply (f_equal read_escaped) in H.
    rewrite string_app_assoc, read_escaped_escape in H. discriminate.
  - apply (f_equal read_escaped) in H.
    rewrite string_app_assoc, read_escaped_escape in H. discriminate.
  - rewrite !string_app_assoc in H.
    pose proof (f_equal read_escaped H) as R.
    rewrite !read_escaped_escape in R. injection R as -> R.
    destruct (IH n2 R) as [-> ->]. now split.
Qed.

Lemma stringify_named (n : string) (v : JsValue) :
  stringify (JArray [JString n; v]) =
    match stringify v with
    | Throw e => Throw e
    | Ok o =>
        Ok (Some ("[" ++ QuoteJSONString n ++ "," ++
                  match o with None => "null" | Some t => t end ++ "]")%string)
    end.
Proof.
  unfold stringify. simpl.
  destruct (SerializeJSONProperty v) as [o|e]; [|reflexivity].
  simpl. now rewrite string_app_assoc.
Qed.

(** The text of [[name, args]] determines the name and the text of the
    arguments. *)
Lemma stringify_pair_injective (n1 n2 : string) (a1 a2 : list JsValue) k :
  stringify (JArray [JString n1; JArray a1]) = Ok k ->
  stringify (JArray [JString n2; JArray a2]) = Ok k ->
  n1 = n2 /\ stringify (JArray a1) = stringify (JArray a2).
Proof.
  rewrite !stringify_named, !stringify_array.
  destruct (SerializeJSONArray a1) as [p1|e1]; [|discriminate].
  destruct (SerializeJSONArray a2) as [p2|e2]; [|discriminate].
  intros H1 H2. rewrite <- H2 in H1. injection H1 as H.
  unfold QuoteJSONString in H. rewrite !string_app_assoc in H.
  apply escape_all_prefix_free in H as [-> H].
  simpl in H. injection H as H.
  assert (E : forall x : string,
             (x ++ "]]" = (x ++ "]") ++ "]")%string)
    by (intro x; now rewrite string_app_assoc).
  rewrite !E in H.
  apply string_app_inv_tail, string_app_inv_tail in H.
  split; [reflexivity|]. now rewrite H.
Qed.

End JSONFacts.

(** ** Properties of the cache *)

(** Runs a call of loadFixture down to its monadic steps. *)
Ltac run_loadFixture :=
  unfold loadFixture, bind, try_catch, lift, ret, throw, get_snapshots,
    set_snapshots, await_restore, await_fixture, await_takeSnapshot; simpl.

Section Properties.

Context {World : Type}.
Context (takeSnapshot : World -> Result (SnapshotRestorer World) * World).

Local Abbreviation loadFixture := (loadFixture takeSnapshot).
Local Abbreviation reachable := (reachable takeSnapshot).
Local Abbreviation Snapshot := (Snapshot World).
Local Abbreviation State := (State World).
Local Abbreviation Fixture := (Fixture World).

(** *** Keys and the search *)

Lemma strict_eq_spec (a b : option string) : strict_eq a b = true <-> a = b.
Proof.
  destruct a as [x|], b as [y|]; simpl; split; intro H;
    try discriminate; try reflexivity.
  - apply String.eqb_eq in H. now subst.
  - injection H as ->. apply String.eqb_refl.
Qed.

Lemma strict_eq_refl (a : option string) : strict_eq a a = true.
Proof. now apply strict_eq_spec. Qed.

Lemma strict_eq_false (a b : option string) : strict_eq a b = false <-> a <> b.
Proof.
  split.
  - intros H E. apply strict_eq_spec in E. congruence.
  - intro N. destruct (strict_eq a b) eqn:E; [|reflexivity].
    apply strict_eq_spec in E. contradiction.
Qed.

Lemma matches_true (k : option string) (s : Snapshot) :
  matches k s = Ok true <-> cacheKey_of s = Ok k.
Proof.
  unfold matches, cacheKey_of.
  destruct (key (name (fixture s)) (args s)) as [k'|e]; split; intro H;
    try discriminate.
  - injection H as H. apply strict_eq_spec in H. now subst.
  - injection H as ->. now rewrite strict_eq_refl.
Qed.

Lemma matches_false (k : option string) (s : Snapshot) :
  matches k s = Ok false <-> exists k', cacheKey_of s = Ok k' /\ k' <> k.
Proof.
  unfold matches, cacheKey_of.
  destruct (key (name (fixture s)) (args s)) as [k'|e]; split.
  - intro H. injection H as H. apply strict_eq_false in H. now exists k'.
  - intros (k2 & E & N). injection E as <-.
    apply strict_eq_false in N. now rewrite N.
  - discriminate.
  - intros (k2 & E & _). discriminate.
Qed.

(** The search finds nothing exactly when no record is stored under the key. *)
Lemma Array_find_None (k : option string) (cache : list Snapshot) :
  Array_find (matches k) cache = Ok None <-> not_cached k cache.
Proof.
  unfold not_cached. induction cache as [|s rest IH]; simpl.
  - split; [constructor | reflexivity].
  - split.
    + destruct (matches k s) as [[|]|e] eqn:E; try discriminate.
      intro H. constructor; [now apply matches_false | now apply IH].
    + intro H. inversion H as [|? ? Hs Hrest]; subst.
      apply matches_false in Hs. rewrite Hs. now apply IH.
Qed.

(** What the search returns is a record of the cache stored under the key. *)
Lemma Array_find_Some (k : option string) (cache : list Snapshot) (s : Snapshot) :
  Array_find (matches k) cache = Ok (Some s) ->
  In s cache /\ cacheKey_of s = Ok k.
Proof.
  induction cache as [|x rest IH]; simpl; [discriminate|].
  destruct (matches k x) as [[|]|e] eqn:E; try discriminate.
  - intro H. injection H as ->. split; [now left | now apply matches_true].
  - intro H. destruct (IH H) as [Hin Hk]. split; [now right | exact Hk].
Qed.

(** A record appended behind a cache that has none under its key is the one
    the search finds. *)
Lemma Array_find_app_new (k : option string) (cache : list Snapshot) (s : Snapshot) :
  not_cached k cache -> cacheKey_of s = Ok k ->
  Array_find (matches k) (cache ++ [s]) = Ok (Some s).
Proof.
  intros Hnc Hk. induction Hnc as [|x rest Hx _ IH]; simpl.
  - apply matches_true in Hk. now rewrite Hk.
  - apply matches_false in Hx. now rewrite Hx.
Qed.

(** Appending a record does not change what an earlier search found. *)
Lemma Array_find_app_old (k : option string) (cache extra : list Snapshot)
      (s : Snapshot) :
  Array_find (matches k) cache = Ok (Some s) ->
  Array_find (matches k) (cache ++ extra) = Ok (Some s).
Proof.
  induction cache as [|x rest IH]; simpl; [discriminate|].
  destruct (matches k x) as [[|]|e]; auto.
Qed.

(** *** The paths of loadFixture, as equations *)

Lemma name_nonempty (f : Fixture) : name f <> "" -> String.eqb (name f) "" = false.
Proof. intro H. now apply String.eqb_neq. Qed.

Lemma loadFixture_anonymous (f : Fixture) (a : list JsValue) (st : State) :
  name f = "" ->
  loadFixture f a st = (Throw FixtureAnonymousFunctionError, st).
Proof. intro H. run_loadFixture. now rewrite H. Qed.

Lemma loadFixture_key_throws (f : Fixture) (a : list JsValue) (st : State) e :
  name f <> "" -> key (name f) a = Throw e ->
  loadFixture f a st = (Throw e, st).
Proof.
  intros Hn Hk. run_loadFixture. now rewrite (name_nonempty _ Hn), Hk.
Qed.

Lemma loadFixture_find_throws (f : Fixture) (a : list JsValue) (st : State) k e :
  name f <> "" -> key (name f) a = Ok k ->
  Array_find (matches k) (snapshots st) = Throw e ->
  loadFixture f a st = (Throw e, st).
Proof.
  intros Hn Hk Hf. run_loadFixture. now rewrite (name_nonempty _ Hn), Hk, Hf.
Qed.

Lemma loadFixture_hit_ok (f : Fixture) (a : list JsValue) (st : State) k s w :
  name f <> "" -> key (name f) a = Ok k ->
  Array_find (matches k) (snapshots st) = Ok (Some s) ->
  restore (restorer s) (world st) = (Ok tt, w) ->
  loadFixture f a st =
    (Ok (data s),
     {| snapshots :=
          filter (fun t => num_le (id_of t) (id_of s)) (snapshots st);
        world := w;
        trace := trace st ++ [CallRestore (id_of s)] |}).
Proof.
  intros Hn Hk Hf Hr. run_loadFixture.
  now rewrite (name_nonempty _ Hn), Hk, Hf, Hr.
Qed.

Lemma loadFixture_hit_throw (f : Fixture) (a : list JsValue) (st : State) k s e w :
  name f <> "" -> key (name f) a = Ok k ->
  Array_find (matches k) (snapshots st) = Ok (Some s) ->
  restore (restorer s) (world st) = (Throw e, w) ->
  loadFixture f a st =
    (Throw (if instanceof_InvalidSnapshotError e
            then FixtureSnapshotError e else e),
     {| snapshots := snapshots st;
        world := w;
        trace := trace st ++ [CallRestore (id_of s)] |}).
Proof.
  intros Hn Hk Hf Hr. run_loadFixture.
  rewrite (name_nonempty _ Hn), Hk, Hf, Hr.
  now destruct (instanceof_InvalidSnapshotError e).
Qed.

Lemma loadFixture_miss_ok (f : Fixture) (a : list JsValue) (st : State)
      k d w1 r w2 :
  name f <> "" -> key (name f) a = Ok k ->
  Array_find (matches k) (snapshots st) = Ok None ->
  call f a (world st) = (Ok d, w1) ->
  takeSnapshot w1 = (Ok r, w2) ->
  loadFixture f a st =
    (Ok d,
     {| snapshots :=
          snapshots st ++
            [{| restorer := r; fixture := f; args := a; data := d |}];
        world := w2;
        trace := trace st ++ [CallFixture (name f) a; CallTakeSnapshot] |}).
Proof.
  intros Hn Hk Hf Hc Ht. run_loadFixture.
  rewrite (name_nonempty _ Hn), Hk, Hf, Hc. simpl. rewrite Ht. simpl.
  now rewrite <- app_assoc.
Qed.

(** On the miss path the first thing the call does is run the fixture. *)
Lemma loadFixture_miss_runs (f : Fixture) (a : list JsValue) (st : State) k :
  name f <> "" -> key (name f) a = Ok k ->
  Array_find (matches k) (snapshots st) = Ok None ->
  exists rest,
    trace (snd (loadFixture f a st)) =
      trace st ++ CallFixture (name f) a :: rest.
Proof.
  intros Hn Hk Hf. run_loadFixture.
  rewrite (name_nonempty _ Hn), Hk, Hf.
  destruct (call f a (world st)) as [[d|e] w1]; simpl.
  - destruct (takeSnapshot w1) as [[r|e] w2]; simpl.
    + exists [CallTakeSnapshot]. now rewrite <- app_assoc.
    + exists [CallTakeSnapshot]. now rewrite <- app_assoc.
  - now exists [].
Qed.

(** The cache after a call is the cache before it, or that cache filtered by
    an id bound, or that cache with one record appended under a key it did
    not hold. *)
Lemma loadFixture_snapshots_cases (f : Fixture) (a : list JsValue) (st : State) :
  snapshots (snd (loadFixture f a st)) = snapshots st
  \/ (exists s : Snapshot,
        snapshots (snd (loadFixture f a st)) =
          filter (fun t => num_le (id_of t) (id_of s)) (snapshots st))
  \/ (exists k d r,
        name f <> "" /\ key (name f) a = Ok k /\
        not_cached k (snapshots st) /\
        snapshots (snd (loadFixture f a st)) =
          snapshots st ++
            [{| restorer := r; fixture := f; args := a; data := d |}]).
Proof.
  destruct (String.eqb (name f) "") eqn:En.
  - apply String.eqb_eq in En. left. now rewrite loadFixture_anonymous.
  - apply String.eqb_neq in En.
    destruct (key (name f) a) as [k|e] eqn:Ek.
    2:{ left. now rewrite (loadFixture_key_throws _ _ _ _ En Ek). }
    destruct (Array_find (matches k) (snapshots st)) as [[s|]|e] eqn:Ef.
    3:{ left. now rewrite (loadFixture_find_throws _ _ _ _ _ En Ek Ef). }
    + destruct (restore (restorer s) (world st)) as [[[]|e] w] eqn:Er.
      * right. left. exists s.
        now rewrite (loadFixture_hit_ok _ _ _ _ _ _ En Ek Ef Er).
      * left. now rewrite (loadFixture_hit_throw _ _ _ _ _ _ _ En Ek Ef Er).
    + destruct (call f a (world st)) as [[d|e] w1] eqn:Ec.
      * destruct (takeSnapshot w1) as [[r|e] w2] eqn:Et.
        -- right. right. exists k, d, r.
           rewrite (loadFixture_miss_ok _ _ _ _ _ _ _ _ En Ek Ef Ec Et).
           repeat split; auto. now apply Array_find_None.
        -- left. run_loadFixture.
           rewrite (name_nonempty _ En), Ek, Ef, Ec. simpl. now rewrite Et.
      * left. run_loadFixture.
        now rewrite (name_nonempty _ En), Ek, Ef, Ec.
Qed.

(** The text of a two-element array whose first element is a string. *)
Lemma stringify_pair (n : string) (v : JsValue) :
  JSON.stringify (JArray [JString n; v]) =
    match JSON.stringify v with
    | Throw e => Throw e
    | Ok o =>
        Ok (Some ("[" ++ JSON.join ","
                    [JSON.QuoteJSONString n;
                     match o with None => "null" | Some t => t end]
                  ++ "]")%string)
    end.
Proof.
  unfold JSON.stringify. simpl.
  now destruct (JSON.SerializeJSONProperty v) as [o|e].
Qed.

(** The key is a function of the fixture name and of the text of the
    arguments. *)
Lemma key_by_identity (n : string) (a : list JsValue) :
  key n a =
    match JSON.stringify (JArray a) with
    | Throw e => Throw e
    | Ok o =>
        Ok (Some ("[" ++ JSON.join ","
                    [JSON.QuoteJSONString n;
                     match o with None => "null" | Some t => t end]
                  ++ "]")%string)
    end.
Proof. unfold key. apply stringify_pair. Qed.

(** *** Lists without duplicates under a projection *)

Lemma NoDup_map_filter {A B} (g : A -> B) (p : A -> bool) (l : list A) :
  NoDup (map g l) -> NoDup (map g (filter p l)).
Proof.
  induction l as [|x l IH]; simpl; intro H; [constructor|].
  inversion H as [|? ? Hx Hl]; subst.
  destruct (p x); simpl; auto.
  constructor; auto.
  intro Hin. apply Hx. apply in_map_iff in Hin as (y & Ey & Hy).
  apply filter_In in Hy as [Hy _]. apply in_map_iff. now exists y.
Qed.

Lemma NoDup_map_snoc {A B} (g : A -> B) (l : list A) (x : A) :
  NoDup (map g l) -> (forall y, In y l -> g y <> g x) ->
  NoDup (map g (l ++ [x])).
Proof.
  intros H Hx. rewrite map_app. apply NoDup_app; auto.
  - simpl. constructor; [intros [] | constructor].
  - intros b Hb [<-|[]]. apply in_map_iff in Hb as (y & Ey & Hy).
    now apply (Hx y).
Qed.

Lemma NoDup_map_In_eq {A B} (g : A -> B) (l : list A) (x y : A) :
  NoDup (map g l) -> In x l -> In y l -> g x = g y -> x = y.
Proof.
  induction l as [|z l IH]; simpl; intros H Hx Hy E; [contradiction|].
  inversion H as [|? ? Hz Hl]; subst.
  destruct Hx as [->|Hx], Hy as [->|Hy]; auto.
  - exfalso. apply Hz. rewrite E. now apply in_map.
  - exfalso. apply Hz. rewrite <- E. now apply in_map.
Qed.

(** *** What every reachable cache satisfies *)

Lemma cache_wf_filter (p : Snapshot -> bool) (cache : list Snapshot) :
  cache_wf cache -> cache_wf (filter p cache).
Proof.
  intros [Hall Hnd]. split.
  - apply Forall_forall. intros s Hs. apply filter_In in Hs as [Hs _].
    revert s Hs. now apply Forall_forall.
  - now apply NoDup_map_filter.
Qed.

Lemma cache_wf_snoc (cache : list Snapshot) (s : Snapshot) k :
  cache_wf cache -> name (fixture s) <> "" -> cacheKey_of s = Ok k ->
  not_cached k cache -> cache_wf (cache ++ [s]).
Proof.
  intros [Hall Hnd] Hn Hk Hnc. split.
  - apply Forall_app. split; auto. constructor; [|constructor].
    split; auto. now exists k.
  - apply NoDup_map_snoc; auto.
    intros y Hy E. unfold not_cached in Hnc.
    rewrite Forall_forall in Hnc. destruct (Hnc y Hy) as (k' & Ek' & N).
    congruence.
Qed.

Lemma loadFixture_cache_wf (f : Fixture) (a : list JsValue) (st : State) :
  cache_wf (snapshots st) -> cache_wf (snapshots (snd (loadFixture f a st))).
Proof.
  intro H.
  destruct (loadFixture_snapshots_cases f a st)
    as [E | [(s & E) | (k & d & r & Hn & Hk & Hnc & E)]]; rewrite E.
  - exact H.
  - now apply cache_wf_filter.
  - now apply cache_wf_snoc with (k := k).
Qed.

Lemma reachable_cache_wf (st : State) : reachable st -> cache_wf (snapshots st).
Proof.
  induction 1 as [w | st f a _ IH | st _ IH | st w _ IH]; simpl.
  - split; constructor.
  - now apply loadFixture_cache_wf.
  - split; constructor.
  - exact IH.
Qed.

(** *** Comparing ids *)

Lemma num_gt_not_le (a b : JsNumber) : num_gt a b = true -> num_le a b = false.
Proof.
  destruct a, b; simpl; try discriminate; try reflexivity.
  intro H. apply Z.ltb_lt in H. apply Z.leb_gt. exact H.
Qed.

Lemma num_le_refl (a : JsNumber) : isNaN a = false -> num_le a a = true.
Proof.
  destruct a; simpl; try discriminate; try reflexivity.
  intros _. apply Z.leb_refl.
Qed.

(** In a well-formed cache, once the records above an id bound are filtered
    out, nothing is stored under the key of a record that was above it. *)
Lemma pruned_key_not_cached (cache : list Snapshot) (t : Snapshot)
      (bound : JsNumber) kt :
  cache_wf cache -> In t cache -> cacheKey_of t = Ok kt ->
  num_gt (id_of t) bound = true ->
  not_cached kt (filter (fun u => num_le (id_of u) bound) cache).
Proof.
  intros [Hall Hnd] Ht Hkt Hgt. apply Forall_forall. intros u Hu.
  apply filter_In in Hu as [Hu Hle].
  rewrite Forall_forall in Hall. destruct (Hall u Hu) as (_ & ku & Hku).
  exists ku. split; [exact Hku|]. intros ->.
  assert (u = t) by (apply (NoDup_map_In_eq cacheKey_of cache); congruence).
  subst u. apply num_gt_not_le in Hgt. congruence.
Qed.

(** *** The claims *)

(** C3. A fixture whose name is the empty string makes loadFixture throw
    FixtureAnonymousFunctionError at once: the state, and with it the log of
    calls, is the one before the call, so the fixture was not run. *)
Theorem loadFixture_anonymous_fails (f : Fixture) (a : list JsValue) (st : State) :
  name f = "" ->
  loadFixture f a st = (Throw FixtureAnonymousFunctionError, st).
Proof. apply loadFixture_anonymous. Qed.

(** C4. On the hit path, when restore throws InvalidSnapshotError the call
    throws FixtureSnapshotError with that error as its cause; when restore
    throws anything else the call throws the same error; in both cases
    restore was called exactly once and nothing else was called. *)
Theorem loadFixture_restore_error (f : Fixture) (a : list JsValue) (st : State)
        k s e w :
  name f <> "" -> key (name f) a = Ok k ->
  Array_find (matches k) (snapshots st) = Ok (Some s) ->
  restore (restorer s) (world st) = (Throw e, w) ->
  (e = InvalidSnapshotError ->
     fst (loadFixture f a st) =
       Throw (FixtureSnapshotError InvalidSnapshotError))
  /\ (e <> InvalidSnapshotError -> fst (loadFixture f a st) = Throw e)
  /\ trace (snd (loadFixture f a st)) = trace st ++ [CallRestore (id_of s)].
Proof.
  intros Hn Hk Hf Hr.
  rewrite (loadFixture_hit_throw _ _ _ _ _ _ _ Hn Hk Hf Hr). simpl.
  repeat split.
  - now intros ->.
  - intro N. destruct e; try reflexivity. contradiction.
Qed.

(** C10. On the hit path, when restore throws (whatever it throws) the array
    of snapshots after the call is the array before it. *)
Theorem loadFixture_restore_error_keeps_cache
        (f : Fixture) (a : list JsValue) (st : State) k s e w :
  name f <> "" -> key (name f) a = Ok k ->
  Array_find (matches k) (snapshots st) = Ok (Some s) ->
  restore (restorer s) (world st) = (Throw e, w) ->
  snapshots (snd (loadFixture f a st)) = snapshots st.
Proof.
  intros Hn Hk Hf Hr.
  now rewrite (loadFixture_hit_throw _ _ _ _ _ _ _ Hn Hk Hf Hr).
Qed.

(** C5. On the miss path (no record is stored under the key of the call),
    loadFixture runs the fixture on the arguments, then takes a snapshot of
    the network the fixture left, appends the record
    {restorer, fixture, args, data} at the end of the array and returns the
    data of the fixture. *)
Theorem loadFixture_miss_path (f : Fixture) (a : list JsValue) (st : State)
        k d w1 r w2 :
  name f <> "" -> key (name f) a = Ok k ->
  not_cached k (snapshots st) ->
  call f a (world st) = (Ok d, w1) ->
  takeSnapshot w1 = (Ok r, w2) ->
  loadFixture f a st =
    (Ok d,
     {| snapshots :=
          snapshots st ++
            [{| restorer := r; fixture := f; args := a; data := d |}];
        world := w2;
        trace := trace st ++ [CallFixture (name f) a; CallTakeSnapshot] |}).
Proof.
  intros Hn Hk Hnc Hc Ht. apply Array_find_None in Hnc.
  now apply loadFixture_miss_ok with (k := k) (w1 := w1).
Qed.


(** C7. clearSnapshots leaves the array empty, and the next loadFixture call
    (named fixture, arguments that serialize), whatever the array held before
    and whatever the network is by then, runs its fixture first. *)
Theorem clearSnapshots_then_loadFixture (st : State) :
  snapshots (snd (clearSnapshots st)) = []
  /\ forall (f : Fixture) (a : list JsValue) k w,
       name f <> "" -> key (name f) a = Ok k ->
       exists rest,
         trace (snd (loadFixture f a (set_world w (snd (clearSnapshots st))))) =
           trace st ++ CallFixture (name f) a :: rest.
Proof.
  split; [reflexivity|].
  intros f a k w Hn Hk.
  now apply (loadFixture_miss_runs f a
               (set_world w (snd (clearSnapshots st))) k).
Qed.


(** C9 (as amended).  For a named fixture: an argument list with a circular
    reference or a BigInt somewhere inside makes loadFixture throw the
    TypeError of JSON.stringify before the cache is searched and before the
    fixture is run, and leaves the state as it was; an argument that is a
    function (or undefined, a symbol, NaN, an infinity) does not: it is
    written [null], the key of the call is the key of the list with [null]
    in its place, and the call returns what is stored under that key. *)
Theorem loadFixture_unserializable_args (f : Fixture) (a : list JsValue)
        (st : State) :
  name f <> "" ->
  (existsb unserializable a = true ->
     loadFixture f a st = (Throw TypeError, st))
  /\ (forall pre v post,
        a = pre ++ v :: post -> flattened v = true ->
        key (name f) a = key (name f) (pre ++ JNull :: post)
        /\ forall k s w,
             key (name f) (pre ++ JNull :: post) = Ok k ->
             Array_find (matches k) (snapshots st) = Ok (Some s) ->
             restore (restorer s) (world st) = (Ok tt, w) ->
             fst (loadFixture f a st) = Ok (data s)
             /\ trace (snd (loadFixture f a st)) =
                  trace st ++ [CallRestore (id_of s)]).
Proof.
  intro Hn. split.
  - intro H. apply loadFixture_key_throws; auto.
    rewrite key_by_identity.
    now rewrite (JSONFacts.unserializable_throws (JArray a) H).
  - intros pre v post -> Hv.
    assert (E : key (name f) (pre ++ v :: post) =
                key (name f) (pre ++ JNull :: post)).
    { rewrite !key_by_identity, !JSONFacts.stringify_array.
      now rewrite (JSONFacts.flattened_like_null pre post v Hv). }
    split; [exact E|].
    intros k s w Hk Hf Hr. rewrite <- E in Hk.
    now rewrite (loadFixture_hit_ok _ _ _ _ _ _ Hn Hk Hf Hr).
Qed.

(** *** Every way a call can end *)

Local Abbreviation outcome := (outcome takeSnapshot).

Lemma loadFixture_miss_fixture_throws (f : Fixture) (a : list JsValue)
      (st : State) k e w1 :
  name f <> "" -> key (name f) a = Ok k ->
  Array_find (matches k) (snapshots st) = Ok None ->
  call f a (world st) = (Throw e, w1) ->
  loadFixture f a st =
    (Throw e,
     {| snapshots := snapshots st; world := w1;
        trace := trace st ++ [CallFixture (name f) a] |}).
Proof.
  intros Hn Hk Hf Hc. run_loadFixture.
  now rewrite (name_nonempty _ Hn), Hk, Hf, Hc.
Qed.

Lemma loadFixture_miss_takeSnapshot_throws (f : Fixture) (a : list JsValue)
      (st : State) k d e w1 w2 :
  name f <> "" -> key (name f) a = Ok k ->
  Array_find (matches k) (snapshots st) = Ok None ->
  call f a (world st) = (Ok d, w1) ->
  takeSnapshot w1 = (Throw e, w2) ->
  loadFixture f a st =
    (Throw e,
     {| snapshots := snapshots st; world := w2;
        trace := trace st ++ [CallFixture (name f) a; CallTakeSnapshot] |}).
Proof.
  intros Hn Hk Hf Hc Ht. run_loadFixture.
  rewrite (name_nonempty _ Hn), Hk, Hf, Hc. simpl. rewrite Ht. simpl.
  now rewrite <- app_assoc.
Qed.

(** A call ends in one of the eight outcomes. *)
Lemma loadFixture_outcome (f : Fixture) (a : list JsValue) (st : State) :
  outcome f a st (loadFixture f a st).
Proof.
  destruct (String.eqb (name f) "") eqn:En.
  { apply String.eqb_eq in En. rewrite loadFixture_anonymous by exact En.
    now constructor. }
  apply String.eqb_neq in En.
  destruct (key (name f) a) as [k|e] eqn:Ek.
  2:{ rewrite (loadFixture_key_throws _ _ _ _ En Ek).
      now apply outcome_key_throws. }
  destruct (Array_find (matches k) (snapshots st)) as [[s|]|e] eqn:Ef.
  3:{ rewrite (loadFixture_find_throws _ _ _ _ _ En Ek Ef).
      now apply outcome_find_throws with (k := k). }
  - destruct (restore (restorer s) (world st)) as [[[]|e] w] eqn:Er.
    + rewrite (loadFixture_hit_ok _ _ _ _ _ _ En Ek Ef Er).
      now apply outcome_restored with (k := k).
    + rewrite (loadFixture_hit_throw _ _ _ _ _ _ _ En Ek Ef Er).
      now apply outcome_restore_throws with (k := k).
  - destruct (call f a (world st)) as [[d|e] w1] eqn:Ec.
    + destruct (takeSnapshot w1) as [[r|e] w2] eqn:Et.
      * rewrite (loadFixture_miss_ok _ _ _ _ _ _ _ _ En Ek Ef Ec Et).
        now apply outcome_stored with (k := k) (w1 := w1).
      * rewrite (loadFixture_miss_takeSnapshot_throws
                   _ _ _ _ _ _ _ _ En Ek Ef Ec Et).
        now apply outcome_takeSnapshot_throws with (k := k) (d := d) (w1 := w1).
    + rewrite (loadFixture_miss_fixture_throws _ _ _ _ _ _ En Ek Ef Ec).
      now apply outcome_fixture_throws with (k := k).
Qed.

Ltac by_outcome f a st :=
  generalize (loadFixture_outcome f a st);
  generalize (loadFixture f a st);
  let r := fresh "r" in
  let H := fresh "Hout" in
  intros r H;
  destruct H as [ Hn0 | e0 Hn0 Hk0 | k0 e0 Hn0 Hk0 Hf0
                | k0 s0 w0 Hn0 Hk0 Hf0 Hr0 | k0 s0 e0 w0 Hn0 Hk0 Hf0 Hr0
                | k0 e0 w1 Hn0 Hk0 Hf0 Hc0
                | k0 d0 e0 w1 w2 Hn0 Hk0 Hf0 Hc0 Ht0
                | k0 d0 r0 w1 w2 Hn0 Hk0 Hf0 Hc0 Ht0 ];
  simpl.

(** On the hit path the call calls restore on the record it found, and
    nothing else, whatever restore does. *)
Lemma loadFixture_hit_trace (f : Fixture) (a : list JsValue) (st : State) k s :
  name f <> "" -> key (name f) a = Ok k ->
  Array_find (matches k) (snapshots st) = Ok (Some s) ->
  trace (snd (loadFixture f a st)) = trace st ++ [CallRestore (id_of s)].
Proof.
  intros Hn Hk Hf.
  destruct (restore (restorer s) (world st)) as [[[]|e] w] eqn:Er.
  - now rewrite (loadFixture_hit_ok _ _ _ _ _ _ Hn Hk Hf Er).
  - now rewrite (loadFixture_hit_throw _ _ _ _ _ _ _ Hn Hk Hf Er).
Qed.

(** *** The search in a filtered cache *)

Lemma Array_find_filter (k : option string) (p : Snapshot -> bool)
      (cache : list Snapshot) (s : Snapshot) :
  Array_find (matches k) cache = Ok (Some s) -> p s = true ->
  Array_find (matches k) (filter p cache) = Ok (Some s).
Proof.
  intros Hf Hp. induction cache as [|x rest IH]; simpl in *; [discriminate|].
  destruct (matches k x) as [[|]|e] eqn:E; try discriminate.
  - injection Hf as ->. rewrite Hp. simpl. now rewrite E.
  - destruct (p x); simpl; [rewrite E|]; auto.
Qed.

Lemma filter_twice {A} (p : A -> bool) (l : list A) :
  filter p (filter p l) = filter p l.
Proof. apply forallb_filter_id, forallb_filter. Qed.

Lemma filter_none {A} (p : A -> bool) (l : list A) :
  (forall x, In x l -> p x = false) -> filter p l = [].
Proof.
  induction l as [|x l IH]; simpl; intro H; [reflexivity|].
  rewrite (H x (or_introl eq_refl)). apply IH. intros y Hy. apply H. now right.
Qed.

Lemma filter_all {A} (p : A -> bool) (l : list A) :
  (forall x, In x l -> p x = true) -> filter p l = l.
Proof.
  intro H. apply forallb_filter_id. now apply forallb_forall.
Qed.

Lemma num_gt_le (a b : JsNumber) : num_gt b a = true -> num_le a b = true.
Proof.
  destruct a, b; simpl; try discriminate; try reflexivity.
  intro H. apply Z.ltb_lt in H. apply Z.leb_le. lia.
Qed.

Lemma num_le_NaN (a : JsNumber) : num_le a NaN = false.
Proof. now destruct a. Qed.

Lemma ids_increasing_nil : ids_increasing (@nil Snapshot).
Proof. intros [|p pre] x mid y post H; discriminate. Qed.

Lemma ids_increasing_cons (x : Snapshot) (cache : list Snapshot) :
  (forall y, In y cache -> num_gt (id_of y) (id_of x) = true) ->
  ids_increasing cache -> ids_increasing (x :: cache).
Proof.
  intros Hx Hinc [|p pre] x' mid y post H; simpl in H; injection H as <- H.
  - apply Hx. rewrite H. apply in_or_app. right. now left.
  - now apply (Hinc pre x' mid y post).
Qed.

(** *** Further properties of loadFixture *)



(** X3. A call that throws, whatever it throws and wherever, leaves the
    array of snapshots as it was. *)
Theorem loadFixture_throw_keeps_cache (f : Fixture) (a : list JsValue)
        (st : State) e :
  fst (loadFixture f a st) = Throw e ->
  snapshots (snd (loadFixture f a st)) = snapshots st.
Proof.
  by_outcome f a st; intro H; try reflexivity; discriminate.
Qed.

(** X4. The calls one loadFixture makes into other code are: none (and it
    throws), or restore on one stored record, or the fixture alone (and it
    throws), or the fixture and then takeSnapshot.  It never both restores
    and runs the fixture, and never takes a snapshot without having run the
    fixture. *)
Theorem loadFixture_calls (f : Fixture) (a : list JsValue) (st : State) :
  exists calls,
    trace (snd (loadFixture f a st)) = trace st ++ calls
    /\ ((calls = [] /\ exists e, fst (loadFixture f a st) = Throw e)
        \/ (exists s, In s (snapshots st)
                      /\ calls = [CallRestore (id_of s)])
        \/ (calls = [CallFixture (name f) a]
            /\ exists e, fst (loadFixture f a st) = Throw e)
        \/ calls = [CallFixture (name f) a; CallTakeSnapshot]).
Proof.
  by_outcome f a st.
  - exists []. rewrite app_nil_r. split; [reflexivity|]. left. eauto.
  - exists []. rewrite app_nil_r. split; [reflexivity|]. left. eauto.
  - exists []. rewrite app_nil_r. split; [reflexivity|]. left. eauto.
  - exists [CallRestore (id_of s0)]. split; [reflexivity|]. right. left.
    exists s0. split; [|reflexivity]. now apply (Array_find_Some k0).
  - exists [CallRestore (id_of s0)]. split; [reflexivity|]. right. left.
    exists s0. split; [|reflexivity]. now apply (Array_find_Some k0).
  - exists [CallFixture (name f) a]. split; [reflexivity|].
    right. right. left. eauto.
  - exists [CallFixture (name f) a; CallTakeSnapshot].
    split; [reflexivity|]. now right; right; right.
  - exists [CallFixture (name f) a; CallTakeSnapshot].
    split; [reflexivity|]. now right; right; right.
Qed.

(** X5. A record whose restore has thrown is not evicted: the next call with
    the same fixture name and arguments, whatever the network is by then,
    finds the same record and calls restore on it again, and does not run
    the fixture. *)
Theorem loadFixture_failed_restore_is_tried_again
        (f : Fixture) (a : list JsValue) (st : State) k s e w :
  name f <> "" -> key (name f) a = Ok k ->
  Array_find (matches k) (snapshots st) = Ok (Some s) ->
  restore (restorer s) (world st) = (Throw e, w) ->
  forall (f' : Fixture) w',
    name f' = name f ->
    trace (snd (loadFixture f' a
                  (set_world w' (snd (loadFixture f a st))))) =
      trace (snd (loadFixture f a st)) ++ [CallRestore (id_of s)].
Proof.
  intros Hn Hk Hf Hr f' w' Hn'.
  rewrite (loadFixture_hit_throw _ _ _ _ _ _ _ Hn Hk Hf Hr). simpl.
  apply (loadFixture_hit_trace f' a
           (set_world w'
              {| snapshots := snapshots st; world := w;
                 trace := trace st ++ [CallRestore (id_of s)] |}) k s);
    simpl; congruence.
Qed.

(** X6. Loading the same fixture again and again is stable: after one
    successful hit on a record with a numeric id, a further hit for the same
    key returns the same data, calls only restore on the same record, and
    leaves the array as the first hit left it. *)
Theorem loadFixture_hit_again (f : Fixture) (a : list JsValue) (st : State)
        k s w w' w2 :
  name f <> "" -> key (name f) a = Ok k ->
  Array_find (matches k) (snapshots st) = Ok (Some s) ->
  restore (restorer s) (world st) = (Ok tt, w) ->
  isNaN (id_of s) = false ->
  restore (restorer s) w' = (Ok tt, w2) ->
  let st1 := snd (loadFixture f a st) in
  loadFixture f a (set_world w' st1) =
    (Ok (data s),
     {| snapshots := snapshots st1; world := w2;
        trace := trace st1 ++ [CallRestore (id_of s)] |}).
Proof.
  intros Hn Hk Hf Hr Hnum Hr' st1. subst st1.
  rewrite (loadFixture_hit_ok _ _ _ _ _ _ Hn Hk Hf Hr). simpl.
  rewrite (loadFixture_hit_ok f a _ k s w2); simpl; auto.
  - now rewrite filter_twice.
  - apply Array_find_filter; auto. now apply num_le_refl.
Qed.

(** X7. When the ids grow along the array, a successful hit truncates it:
    the records before the restored one and the restored one stay, in
    order, and all the records behind it are dropped. *)
Theorem loadFixture_hit_truncates (f : Fixture) (a : list JsValue) (st : State)
        k s w pre post :
  name f <> "" -> key (name f) a = Ok k ->
  Array_find (matches k) (snapshots st) = Ok (Some s) ->
  restore (restorer s) (world st) = (Ok tt, w) ->
  snapshots st = pre ++ s :: post ->
  ids_increasing (snapshots st) ->
  isNaN (id_of s) = false ->
  snapshots (snd (loadFixture f a st)) = pre ++ [s].
Proof.
  intros Hn Hk Hf Hr Hsplit Hinc Hnum.
  rewrite (loadFixture_hit_ok _ _ _ _ _ _ Hn Hk Hf Hr). simpl.
  rewrite Hsplit, filter_app. simpl.
  rewrite (num_le_refl _ Hnum). f_equal; [|f_equal].
  - apply filter_all. intros x Hx.
    apply in_split in Hx as (p1 & p2 & ->). apply num_gt_le.
    apply (Hinc p1 x p2 s post). rewrite Hsplit, <- app_assoc. reflexivity.
  - apply filter_none. intros y Hy.
    apply in_split in Hy as (q1 & q2 & ->). apply num_gt_not_le.
    apply (Hinc pre s q1 y q2). exact Hsplit.
Qed.

(** X8. When the id of the restored record is not numeric, a successful hit
    empties the array: every comparison with NaN is false, so the filter
    drops every record, the restored one included. *)
Theorem loadFixture_hit_NaN_empties (f : Fixture) (a : list JsValue)
        (st : State) k s w :
  name f <> "" -> key (name f) a = Ok k ->
  Array_find (matches k) (snapshots st) = Ok (Some s) ->
  restore (restorer s) (world st) = (Ok tt, w) ->
  isNaN (id_of s) = true ->
  fst (loadFixture f a st) = Ok (data s)
  /\ snapshots (snd (loadFixture f a st)) = [].
Proof.
  intros Hn Hk Hf Hr Hnan.
  rewrite (loadFixture_hit_ok _ _ _ _ _ _ Hn Hk Hf Hr). simpl.
  split; [reflexivity|]. apply filter_none. intros x _.
  destruct (id_of s); try discriminate. apply num_le_NaN.
Qed.

(** X9. Two calls have the same cache key exactly when their fixtures have
    the same name and their argument lists have the same JSON text: the key
    never confuses two names, nor a name with a part of the arguments. *)
Theorem key_shared_iff (n1 n2 : string) (a1 a2 : list JsValue) k :
  key n1 a1 = Ok k ->
  (key n2 a2 = Ok k <->
   n2 = n1 /\ JSON.stringify (JArray a2) = JSON.stringify (JArray a1)).
Proof.
  intro H1. split.
  - intro H2. unfold key in *.
    destruct (JSONFacts.stringify_pair_injective _ _ _ _ _ H1 H2) as [-> E].
    now split.
  - intros [-> E]. rewrite key_by_identity, E, <- key_by_identity. exact H1.
Qed.

End Properties.

(** ** Properties of the cache on arguments passed by reference *)

Module ByReferenceFacts.
Import ByReference.

Ltac run_loadFixture_by_reference :=
  unfold loadFixture, bind, try_catch, lift, ret, throw, get_snapshots,
    set_snapshots, get_world, await_restore, await_fixture,
    await_takeSnapshot; simpl.

Section Facts.

Context {World Ref : Type}.
Context (deref : World -> Ref -> list JsValue).
Context (takeSnapshot : World -> Result (SnapshotRestorer World) * World).

Local Abbreviation loadFixture := (loadFixture deref takeSnapshot).
Local Abbreviation matches := (matches deref).
Local Abbreviation cacheKey_of := (cacheKey_of deref).
Local Abbreviation identity_of := (identity_of deref).
Local Abbreviation text := (text deref).
Local Abbreviation texts_kept := (texts_kept deref).
Local Abbreviation never_loaded := (never_loaded deref).
Local Abbreviation one_record_per_identity := (one_record_per_identity deref).
Local Abbreviation cache_wf := (cache_wf deref).
Local Abbreviation reachable := (reachable deref takeSnapshot).
Local Abbreviation undisturbed := (undisturbed deref takeSnapshot).
Local Abbreviation stored_by_a_run := (stored_by_a_run (Ref := Ref) takeSnapshot).
Local Abbreviation Snapshot := (Snapshot World Ref).
Local Abbreviation State := (State World Ref).
Local Abbreviation Fixture := (Fixture World Ref).

(** *** Keys, texts and the search *)

Lemma held_matches_true (w : World) (k : option string) (s : Snapshot) :
  matches w k s = Ok true <-> cacheKey_of w s = Ok k.
Proof.
  unfold ByReference.matches, ByReference.cacheKey_of.
  destruct (key (name (fixture s)) (deref w (args s))) as [k'|e]; split;
    intro H; try discriminate.
  - injection H as H. apply strict_eq_spec in H. now subst.
  - injection H as ->. now rewrite strict_eq_refl.
Qed.

Lemma held_matches_false (w : World) (k : option string) (s : Snapshot) :
  matches w k s = Ok false <-> exists k', cacheKey_of w s = Ok k' /\ k' <> k.
Proof.
  unfold ByReference.matches, ByReference.cacheKey_of.
  destruct (key (name (fixture s)) (deref w (args s))) as [k'|e]; split.
  - intro H. injection H as H. apply strict_eq_false in H. now exists k'.
  - intros (k2 & E & N). injection E as <-.
    apply strict_eq_false in N. now rewrite N.
  - discriminate.
  - intros (k2 & E & _). discriminate.
Qed.

Lemma held_find_None (w : World) (k : option string) (cache : list Snapshot) :
  Array_find (matches w k) cache = Ok None <->
  Forall (fun s => exists k', cacheKey_of w s = Ok k' /\ k' <> k) cache.
Proof.
  induction cache as [|s rest IH]; simpl.
  - split; [constructor | reflexivity].
  - split.
    + destruct (matches w k s) as [[|]|e] eqn:E; try discriminate.
      intro H. constructor; [now apply held_matches_false | now apply IH].
    + intro H. inversion H as [|? ? Hs Hrest]; subst.
      apply held_matches_false in Hs. rewrite Hs. now apply IH.
Qed.

Lemma held_find_Some (w : World) (k : option string) (cache : list Snapshot)
      (s : Snapshot) :
  Array_find (matches w k) cache = Ok (Some s) ->
  In s cache /\ cacheKey_of w s = Ok k.
Proof.
  induction cache as [|x rest IH]; simpl; [discriminate|].
  destruct (matches w k x) as [[|]|e] eqn:E; try discriminate.
  - intro H. injection H as ->. split; [now left | now apply held_matches_true].
  - intro H. destruct (IH H) as [Hin Hk]. split; [now right | exact Hk].
Qed.

Lemma held_find_app_new (w : World) (k : option string)
      (cache : list Snapshot) (s : Snapshot) :
  Array_find (matches w k) cache = Ok None -> cacheKey_of w s = Ok k ->
  Array_find (matches w k) (cache ++ [s]) = Ok (Some s).
Proof.
  intros Hnone Hk. apply held_find_None in Hnone.
  induction Hnone as [|x rest Hx _ IH]; simpl.
  - apply held_matches_true in Hk. now rewrite Hk.
  - apply held_matches_false in Hx. now rewrite Hx.
Qed.

(** The key of a record is a function of its name and of the text of its
    array. *)
Lemma cacheKey_by_text (w : World) (n : string) (r : Ref) :
  key n (deref w r) =
    match text w r with
    | Throw e => Throw e
    | Ok o =>
        Ok (Some ("[" ++ JSON.join ","
                    [JSON.QuoteJSONString n;
                     match o with None => "null" | Some t => t end]
                  ++ "]")%string)
    end.
Proof. apply key_by_identity. Qed.

Lemma cacheKey_kept (w w' : World) (n : string) (r : Ref) :
  text w' r = text w r -> key n (deref w' r) = key n (deref w r).
Proof. intro H. now rewrite !cacheKey_by_text, H. Qed.

Lemma text_of_key (w : World) (n : string) (r : Ref) k :
  key n (deref w r) = Ok k -> exists t, text w r = Ok t.
Proof.
  rewrite cacheKey_by_text. destruct (text w r) as [t|e]; [|discriminate].
  intros _. now exists t.
Qed.

Lemma key_of_text (w : World) (n : string) (r : Ref) t :
  text w r = Ok t -> exists k, key n (deref w r) = Ok k.
Proof. intro H. rewrite cacheKey_by_text, H. eauto. Qed.

(** Equal keys come from equal names and equal texts. *)
Lemma key_splits (w : World) (n1 n2 : string) (r1 r2 : Ref) k :
  key n1 (deref w r1) = Ok k -> key n2 (deref w r2) = Ok k ->
  n1 = n2 /\ text w r1 = text w r2.
Proof. apply JSONFacts.stringify_pair_injective. Qed.

(** A fixture and an array that were never loaded are not in the cache
    under the key the call computes. *)
Lemma never_loaded_not_found (w : World) (n : string) (a : Ref)
      (cache : list Snapshot) k :
  never_loaded w n a cache -> key n (deref w a) = Ok k ->
  Array_find (matches w k) cache = Ok None.
Proof.
  intros Hnl Hk. apply held_find_None.
  unfold ByReference.never_loaded in Hnl.
  eapply Forall_impl; [|exact Hnl]. intros s ((t & Ht) & Hdiff).
  destruct (key_of_text w (name (fixture s)) (args s) t Ht) as [k' Hk'].
  exists k'. split; [exact Hk'|]. intros ->.
  destruct (key_splits _ _ _ _ _ _ Hk' Hk) as [En Et].
  destruct Hdiff as [N|N]; contradiction.
Qed.

(** *** The paths of loadFixture, as equations *)

Lemma held_name_nonempty (f : Fixture) :
  name f <> "" -> String.eqb (name f) "" = false.
Proof. intro H. now apply String.eqb_neq. Qed.

Lemma held_anonymous (f : Fixture) (a : Ref) (st : State) :
  name f = "" ->
  loadFixture f a st = (Throw FixtureAnonymousFunctionError, st).
Proof. intro H. run_loadFixture_by_reference. now rewrite H. Qed.

Lemma held_key_throws (f : Fixture) (a : Ref) (st : State) e :
  name f <> "" -> key (name f) (deref (world st) a) = Throw e ->
  loadFixture f a st = (Throw e, st).
Proof.
  intros Hn Hk. run_loadFixture_by_reference.
  now rewrite (held_name_nonempty _ Hn), Hk.
Qed.

Lemma held_find_throws (f : Fixture) (a : Ref) (st : State) k e :
  name f <> "" -> key (name f) (deref (world st) a) = Ok k ->
  Array_find (matches (world st) k) (snapshots st) = Throw e ->
  loadFixture f a st = (Throw e, st).
Proof.
  intros Hn Hk Hf. run_loadFixture_by_reference.
  now rewrite (held_name_nonempty _ Hn), Hk, Hf.
Qed.

Lemma held_hit_ok (f : Fixture) (a : Ref) (st : State) k s w :
  name f <> "" -> key (name f) (deref (world st) a) = Ok k ->
  Array_find (matches (world st) k) (snapshots st) = Ok (Some s) ->
  restore (restorer s) (world st) = (Ok tt, w) ->
  loadFixture f a st =
    (Ok (data s),
     {| snapshots :=
          filter (fun t => num_le (id_of t) (id_of s)) (snapshots st);
        world := w;
        trace := trace st ++ [CallRestore (id_of s)] |}).
Proof.
  intros Hn Hk Hf Hr. run_loadFixture_by_reference.
  now rewrite (held_name_nonempty _ Hn), Hk, Hf, Hr.
Qed.

Lemma held_hit_throw (f : Fixture) (a : Ref) (st : State) k s e w :
  name f <> "" -> key (name f) (deref (world st) a) = Ok k ->
  Array_find (matches (world st) k) (snapshots st) = Ok (Some s) ->
  restore (restorer s) (world st) = (Throw e, w) ->
  loadFixture f a st =
    (Throw (if instanceof_InvalidSnapshotError e
            then FixtureSnapshotError e else e),
     {| snapshots := snapshots st; world := w;
        trace := trace st ++ [CallRestore (id_of s)] |}).
Proof.
  intros Hn Hk Hf Hr. run_loadFixture_by_reference.
  rewrite (held_name_nonempty _ Hn), Hk, Hf, Hr.
  now destruct (instanceof_InvalidSnapshotError e).
Qed.

Lemma held_miss_ok (f : Fixture) (a : Ref) (st : State) k d w1 r w2 :
  name f <> "" -> key (name f) (deref (world st) a) = Ok k ->
  Array_find (matches (world st) k) (snapshots st) = Ok None ->
  call f a (world st) = (Ok d, w1) ->
  takeSnapshot w1 = (Ok r, w2) ->
  loadFixture f a st =
    (Ok d,
     {| snapshots :=
          snapshots st ++
            [{| restorer := r; fixture := f; args := a; data := d |}];
        world := w2;
        trace := trace st ++
                 [CallFixture (name f) (deref (world st) a);
                  CallTakeSnapshot] |}).
Proof.
  intros Hn Hk Hf Hc Ht. run_loadFixture_by_reference.
  rewrite (held_name_nonempty _ Hn), Hk, Hf, Hc. simpl. rewrite Ht. simpl.
  now rewrite <- app_assoc.
Qed.

Lemma held_miss_fixture_throws (f : Fixture) (a : Ref) (st : State) k e w1 :
  name f <> "" -> key (name f) (deref (world st) a) = Ok k ->
  Array_find (matches (world st) k) (snapshots st) = Ok None ->
  call f a (world st) = (Throw e, w1) ->
  loadFixture f a st =
    (Throw e,
     {| snapshots := snapshots st; world := w1;
        trace := trace st ++ [CallFixture (name f) (deref (world st) a)] |}).
Proof.
  intros Hn Hk Hf Hc. run_loadFixture_by_reference.
  now rewrite (held_name_nonempty _ Hn), Hk, Hf, Hc.
Qed.

Lemma held_miss_takeSnapshot_throws (f : Fixture) (a : Ref) (st : State)
      k d e w1 w2 :
  name f <> "" -> key (name f) (deref (world st) a) = Ok k ->
  Array_find (matches (world st) k) (snapshots st) = Ok None ->
  call f a (world st) = (Ok d, w1) ->
  takeSnapshot w1 = (Throw e, w2) ->
  loadFixture f a st =
    (Throw e,
     {| snapshots := snapshots st; world := w2;
        trace := trace st ++
                 [CallFixture (name f) (deref (world st) a);
                  CallTakeSnapshot] |}).
Proof.
  intros Hn Hk Hf Hc Ht. run_loadFixture_by_reference.
  rewrite (held_name_nonempty _ Hn), Hk, Hf, Hc. simpl. rewrite Ht. simpl.
  now rewrite <- app_assoc.
Qed.

Lemma held_miss_runs (f : Fixture) (a : Ref) (st : State) k :
  name f <> "" -> key (name f) (deref (world st) a) = Ok k ->
  Array_find (matches (world st) k) (snapshots st) = Ok None ->
  exists rest,
    trace (snd (loadFixture f a st)) =
      trace st ++ CallFixture (name f) (deref (world st) a) :: rest.
Proof.
  intros Hn Hk Hf. run_loadFixture_by_reference.
  rewrite (held_name_nonempty _ Hn), Hk, Hf.
  destruct (call f a (world st)) as [[d|e] w1]; simpl.
  - destruct (takeSnapshot w1) as [[r|e] w2]; simpl.
    + exists [CallTakeSnapshot]. now rewrite <- app_assoc.
    + exists [CallTakeSnapshot]. now rewrite <- app_assoc.
  - now exists [].
Qed.

(** A call throws and leaves the array of snapshots alone, or restores the
    record it found, or stores the record of a run. *)
Lemma held_cases (f : Fixture) (a : Ref) (st : State) :
  (exists e, fst (loadFixture f a st) = Throw e
             /\ snapshots (snd (loadFixture f a st)) = snapshots st)
  \/ (exists k s w,
        name f <> "" /\ key (name f) (deref (world st) a) = Ok k
        /\ Array_find (matches (world st) k) (snapshots st) = Ok (Some s)
        /\ restore (restorer s) (world st) = (Ok tt, w)
        /\ loadFixture f a st =
             (Ok (data s),
              {| snapshots :=
                   filter (fun t => num_le (id_of t) (id_of s)) (snapshots st);
                 world := w;
                 trace := trace st ++ [CallRestore (id_of s)] |}))
  \/ (exists k d r w1 w2,
        name f <> "" /\ key (name f) (deref (world st) a) = Ok k
        /\ Array_find (matches (world st) k) (snapshots st) = Ok None
        /\ call f a (world st) = (Ok d, w1)
        /\ takeSnapshot w1 = (Ok r, w2)
        /\ loadFixture f a st =
             (Ok d,
              {| snapshots :=
                   snapshots st ++
                     [{| restorer := r; fixture := f; args := a; data := d |}];
                 world := w2;
                 trace := trace st ++
                          [CallFixture (name f) (deref (world st) a);
                           CallTakeSnapshot] |})).
Proof.
  destruct (String.eqb (name f) "") eqn:En.
  { apply String.eqb_eq in En. left. rewrite held_anonymous by exact En.
    eexists; split; reflexivity. }
  apply String.eqb_neq in En.
  destruct (key (name f) (deref (world st) a)) as [k|e] eqn:Ek.
  2:{ left. rewrite (held_key_throws _ _ _ _ En Ek).
      eexists; split; reflexivity. }
  destruct (Array_find (matches (world st) k) (snapshots st))
    as [[s|]|e] eqn:Ef.
  3:{ left. rewrite (held_find_throws _ _ _ _ _ En Ek Ef).
      eexists; split; reflexivity. }
  - destruct (restore (restorer s) (world st)) as [[[]|e] w] eqn:Er.
    + right. left. exists k, s, w. repeat split; auto.
      now apply held_hit_ok with (k := k).
    + left. rewrite (held_hit_throw _ _ _ _ _ _ _ En Ek Ef Er).
      eexists; split; reflexivity.
  - destruct (call f a (world st)) as [[d|e] w1] eqn:Ec.
    + destruct (takeSnapshot w1) as [[r|e] w2] eqn:Et.
      * right. right. exists k, d, r, w1, w2. repeat split; auto.
        now apply held_miss_ok with (k := k) (w1 := w1).
      * left. run_loadFixture_by_reference.
        rewrite (held_name_nonempty _ En), Ek, Ef, Ec. simpl. rewrite Et.
        simpl. eexists; split; reflexivity.
    + left. run_loadFixture_by_reference.
      rewrite (held_name_nonempty _ En), Ek, Ef, Ec. simpl.
      eexists; split; reflexivity.
Qed.

(** *** Arrays whose text is kept *)

Lemma kept_text (w w' : World) (refs : list Ref) (r : Ref) :
  texts_kept w w' refs -> In r refs -> text w' r = text w r.
Proof.
  unfold ByReference.texts_kept. rewrite Forall_forall. auto.
Qed.

Lemma kept_cacheKey (w w' : World) (cache : list Snapshot) (s : Snapshot) :
  texts_kept w w' (map args cache) -> In s cache ->
  cacheKey_of w' s = cacheKey_of w s.
Proof.
  intros Hk Hin. unfold ByReference.cacheKey_of. apply cacheKey_kept.
  apply (kept_text _ _ _ _ Hk). now apply in_map.
Qed.

Lemma kept_identity (w w' : World) (cache : list Snapshot) (s : Snapshot) :
  texts_kept w w' (map args cache) -> In s cache ->
  identity_of w' s = identity_of w s.
Proof.
  intros Hk Hin. unfold ByReference.identity_of. f_equal.
  apply (kept_text _ _ _ _ Hk). now apply in_map.
Qed.

Lemma texts_kept_tail (w w' : World) (r : Ref) (refs : list Ref) :
  texts_kept w w' (r :: refs) -> text w' r = text w r /\ texts_kept w w' refs.
Proof. intro H. inversion H; subst. now split. Qed.

(** *** Caches whose arrays were left alone *)

Lemma cache_wf_kept (w w' : World) (cache : list Snapshot) :
  texts_kept w w' (map args cache) -> cache_wf w cache -> cache_wf w' cache.
Proof.
  intros Hk [Hall Hnd]. split.
  - apply Forall_forall. intros s Hs. rewrite Forall_forall in Hall.
    destruct (Hall s Hs) as (Hn & k & Hks). split; [exact Hn|].
    exists k. now rewrite (kept_cacheKey w w' cache s Hk Hs).
  - rewrite (map_ext_in (cacheKey_of w') (cacheKey_of w)); [exact Hnd|].
    intros s Hs. now apply (kept_cacheKey w w' cache).
Qed.

Lemma cache_wf_filtered (w : World) (p : Snapshot -> bool)
      (cache : list Snapshot) :
  cache_wf w cache -> cache_wf w (filter p cache).
Proof.
  intros [Hall Hnd]. split.
  - apply Forall_forall. intros s Hs. apply filter_In in Hs as [Hs _].
    revert s Hs. now apply Forall_forall.
  - now apply NoDup_map_filter.
Qed.

Lemma cache_wf_appended (w : World) (cache : list Snapshot) (s : Snapshot) k :
  cache_wf w cache -> name (fixture s) <> "" -> cacheKey_of w s = Ok k ->
  Array_find (matches w k) cache = Ok None -> cache_wf w (cache ++ [s]).
Proof.
  intros [Hall Hnd] Hn Hk Hnone. apply held_find_None in Hnone. split.
  - apply Forall_app. split; auto. constructor; [|constructor].
    split; auto. now exists k.
  - apply NoDup_map_snoc; auto.
    intros y Hy E. rewrite Forall_forall in Hnone.
    destruct (Hnone y Hy) as (k' & Ek' & N). congruence.
Qed.

Lemma undisturbed_cache_wf (st : State) :
  undisturbed st -> cache_wf (world st) (snapshots st).
Proof.
  induction 1 as [w | st f a _ IH Hk | st _ IH | st w _ IH Hk]; simpl.
  - split; constructor.
  - apply texts_kept_tail in Hk as [Ha Hk]. revert Ha Hk.
    destruct (held_cases f a st)
      as [(e & _ & E) | [(k & s & w & Hn & Hkey & Hf & Hr & E)
                        | (k & d & r & w1 & w2 & Hn & Hkey & Hf & Hc & Ht & E)]].
    + rewrite E. intros _ Hk. now apply (cache_wf_kept (world st)).
    + rewrite E. simpl. intros _ Hk. apply cache_wf_filtered.
      now apply (cache_wf_kept (world st)).
    + rewrite E. simpl. intros Ha Hk.
      apply cache_wf_appended with (k := k); auto.
      * now apply (cache_wf_kept (world st)).
      * unfold ByReference.cacheKey_of. simpl.
        now rewrite (cacheKey_kept _ _ _ _ Ha).
      * apply held_find_None. apply held_find_None in Hf.
        apply Forall_forall. intros y Hy. rewrite Forall_forall in Hf.
        destruct (Hf y Hy) as (k' & Ek' & N). exists k'. split; [|exact N].
        now rewrite (kept_cacheKey (world st) w2 (snapshots st) y Hk Hy).
  - split; constructor.
  - now apply (cache_wf_kept (world st)).
Qed.

(** In a well-formed cache the search for the key of a stored record finds
    that record. *)
Lemma cache_wf_finds_own (w : World) (cache : list Snapshot) (s : Snapshot) k :
  cache_wf w cache -> In s cache -> cacheKey_of w s = Ok k ->
  Array_find (matches w k) cache = Ok (Some s).
Proof.
  intros [Hall Hnd] Hin Hk.
  induction cache as [|x rest IH]; simpl in *; [contradiction|].
  inversion Hall as [|? ? (_ & kx & Hx) Hrest]; subst.
  inversion Hnd as [|? ? Hnotin Hnd']; subst.
  destruct Hin as [->|Hin].
  - apply held_matches_true in Hk. now rewrite Hk.
  - assert (N : kx <> k).
    { intros ->. apply Hnotin. rewrite Hx, <- Hk. now apply in_map. }
    assert (E : matches w k x = Ok false)
      by (apply held_matches_false; now exists kx).
    rewrite E. now apply IH.
Qed.

Lemma cache_wf_search (w : World) (cache : list Snapshot) k :
  cache_wf w cache -> exists found, Array_find (matches w k) cache = Ok found.
Proof.
  intros [Hall _]. induction Hall as [|x rest (_ & kx & Hx) _ IH]; simpl.
  - now exists None.
  - unfold ByReference.matches. unfold ByReference.cacheKey_of in Hx.
    rewrite Hx. destruct (strict_eq kx k); [now exists (Some x) | exact IH].
Qed.

Lemma reachable_stored_by_a_run (st : State) :
  reachable st -> Forall stored_by_a_run (snapshots st).
Proof.
  induction 1 as [w | st f a _ IH | st _ IH | st w _ IH]; simpl;
    try constructor; try exact IH.
  destruct (held_cases f a st)
    as [(e & _ & E) | [(k & s & w & Hn & Hkey & Hf & Hr & E)
                      | (k & d & r & w1 & w2 & Hn & Hkey & Hf & Hc & Ht & E)]];
    rewrite E; simpl; auto.
  - apply Forall_forall. intros t Ht. apply filter_In in Ht as [Ht _].
    revert t Ht. now apply Forall_forall.
  - apply Forall_app. split; [exact IH|]. constructor; [|constructor].
    now exists (world st), w1, w2.
Qed.

(** *** The claims that depend on who writes to the arguments *)



(** *** Further properties *)

(** X10. As long as no call and nothing between the calls has changed the
    JSON text of an array in use, a call with a named fixture and an array
    that serializes never fails in the lookup: it goes on to restore a
    record stored under its key or to run the fixture. *)
Theorem loadFixture_undisturbed_lookup (f : Fixture) (a : Ref) (st : State) k :
  undisturbed st -> name f <> "" ->
  key (name f) (deref (world st) a) = Ok k ->
  exists c rest,
    trace (snd (loadFixture f a st)) = trace st ++ c :: rest
    /\ (c = CallFixture (name f) (deref (world st) a)
        \/ exists s, In s (snapshots st)
                     /\ cacheKey_of (world st) s = Ok k
                     /\ c = CallRestore (id_of s)).
Proof.
  intros Hu Hn Hk.
  destruct (cache_wf_search _ _ k (undisturbed_cache_wf _ Hu)) as [[s|] Hf].
  - exists (CallRestore (id_of s)), [].
    destruct (held_find_Some _ _ _ _ Hf) as [Hin Hks]. split.
    + destruct (restore (restorer s) (world st)) as [[[]|e] w] eqn:Er.
      * now rewrite (held_hit_ok _ _ _ _ _ _ Hn Hk Hf Er).
      * now rewrite (held_hit_throw _ _ _ _ _ _ _ Hn Hk Hf Er).
    + right. now exists s.
  - destruct (held_miss_runs f a st k Hn Hk Hf) as [rest E].
    exists (CallFixture (name f) (deref (world st) a)), rest.
    split; [exact E | now left].
Qed.

(** X11. In a state the module can reach, what a call returns is either
    what its own fixture returns on its array now, or the data of a stored
    record whose fixture has the same name and whose array has the same
    JSON text as the array of the call, and which was stored when that
    fixture, called on that array, returned that data. *)
Theorem loadFixture_returns_fresh_or_stored
        (f : Fixture) (a : Ref) (st : State) d :
  reachable st ->
  fst (loadFixture f a st) = Ok d ->
  (exists w1, call f a (world st) = (Ok d, w1))
  \/ (exists s, In s (snapshots st)
                /\ data s = d
                /\ name (fixture s) = name f
                /\ text (world st) (args s) = text (world st) a
                /\ stored_by_a_run s).
Proof.
  intros Hreach.
  pose proof (reachable_stored_by_a_run _ Hreach) as Hprov.
  destruct (held_cases f a st)
    as [(e & Ee & _) | [(k & s & w & Hn & Hkey & Hf & Hr & E)
                       | (k & d' & r & w1 & w2 & Hn & Hkey & Hf & Hc & Ht & E)]].
  - rewrite Ee. discriminate.
  - rewrite E. simpl. intro H. injection H as <-. right.
    destruct (held_find_Some _ _ _ _ Hf) as [Hin Hks].
    rewrite Forall_forall in Hprov.
    destruct (key_splits _ _ _ _ _ _ Hks Hkey) as [En Et].
    exists s. repeat split; auto.
  - rewrite E. simpl. intro H. injection H as <-. left. now exists w1.
Qed.


End Facts.

End ByReferenceFacts.

(** ** The two embeddings agree where nothing writes *)

Lemma by_value_find (w : Type) (x : w) (k : option string)
      (cache : list (Snapshot w)) :
  Array_find (ByReference.matches (fun _ a => a) x k)
             (map by_value_snapshot cache) =
    match Array_find (matches k) cache with
    | Ok found => Ok (option_map by_value_snapshot found)
    | Throw e => Throw e
    end.
Proof.
  induction cache as [|s rest IH]; simpl; [reflexivity|].
  change (ByReference.matches (fun _ a => a) x k (by_value_snapshot s))
    with (matches k s).
  destruct (matches k s) as [[|]|e]; auto.
Qed.

(** When a reference is the value it holds, the module on references does
    what section [LoadFixture] says. *)
Lemma by_value_loadFixture (World : Type)
      (takeSnapshot : World -> Result (SnapshotRestorer World) * World)
      (f : Fixture World) (a : list JsValue) (st : State World) :
  ByReference.loadFixture (fun _ a => a) takeSnapshot (by_value f) a
                          (by_value_state st) =
    (fst (loadFixture takeSnapshot f a st),
     by_value_state (snd (loadFixture takeSnapshot f a st))).
Proof.
  assert (Hfilter : forall (s : Snapshot World) (l : list (Snapshot World)),
             filter (fun t => num_le (ByReference.id_of t)
                                     (ByReference.id_of (by_value_snapshot s)))
                    (map by_value_snapshot l) =
             map by_value_snapshot
                 (filter (fun t => num_le (id_of t) (id_of s)) l)).
  { intros s l. rewrite filter_map_swap. reflexivity. }
  assert (Hfind : forall k,
             Array_find (ByReference.matches (fun _ a => a)
                           (ByReference.world (by_value_state st)) k)
                        (ByReference.snapshots (by_value_state st)) =
             match Array_find (matches k) (snapshots st) with
             | Ok found => Ok (option_map by_value_snapshot found)
             | Throw e => Throw e
             end)
    by (intro k; apply by_value_find).
  generalize (loadFixture_outcome takeSnapshot f a st).
  generalize (loadFixture takeSnapshot f a st).
  intros r Hout.
  destruct Hout as [ Hn | e Hn Hk | k e Hn Hk Hf | k s w Hn Hk Hf Hr
                   | k s e w Hn Hk Hf Hr | k e w1 Hn Hk Hf Hc
                   | k d e w1 w2 Hn Hk Hf Hc Ht | k d r' w1 w2 Hn Hk Hf Hc Ht ];
    simpl.
  - now apply ByReferenceFacts.held_anonymous.
  - now apply ByReferenceFacts.held_key_throws.
  - apply ByReferenceFacts.held_find_throws with (k := k); auto.
    now rewrite Hfind, Hf.
  - rewrite (ByReferenceFacts.held_hit_ok _ _ (by_value f) a
               (by_value_state st) k (by_value_snapshot s) w); auto.
    + unfold by_value_state. simpl. now rewrite Hfilter.
    + now rewrite Hfind, Hf.
  - rewrite (ByReferenceFacts.held_hit_throw _ _ (by_value f) a
               (by_value_state st) k (by_value_snapshot s) e w); auto.
    now rewrite Hfind, Hf.
  - rewrite (ByReferenceFacts.held_miss_fixture_throws _ _ (by_value f) a
               (by_value_state st) k e w1); auto.
    now rewrite Hfind, Hf.
  - rewrite (ByReferenceFacts.held_miss_takeSnapshot_throws _ _ (by_value f) a
               (by_value_state st) k d e w1 w2); auto.
    now rewrite Hfind, Hf.
  - rewrite (ByReferenceFacts.held_miss_ok _ _ (by_value f) a
               (by_value_state st) k d w1 r' w2); auto.
    + unfold by_value_state. simpl. now rewrite map_app.
    + now rewrite Hfind, Hf.
Qed.

(** ** The claims on the small network *)

Lemma loadFixture_anonymous_fails_witness :
  name Toy.anonymous = ""
  /\ Toy.loadFixture Toy.anonymous Toy.hundred Toy.once =
       (Throw FixtureAnonymousFunctionError, Toy.once).
Proof.
  split; [reflexivity|].
  apply (loadFixture_anonymous_fails Toy.takeSnapshot). reflexivity.
Defined.

Lemma loadFixture_restore_error_witness :
  (name Toy.deploy <> ""
   /\ key (name Toy.deploy) Toy.hundred = Ok Toy.key_hundred
   /\ Array_find (matches Toy.key_hundred) (snapshots Toy.with_stale) =
        Ok (Some Toy.stale_record)
   /\ restore Toy.stale Toy.genesis = (Throw InvalidSnapshotError, Toy.genesis)
   /\ fst (Toy.loadFixture Toy.deploy Toy.hundred Toy.with_stale) =
        Throw (FixtureSnapshotError InvalidSnapshotError)
   /\ trace (snd (Toy.loadFixture Toy.deploy Toy.hundred Toy.with_stale)) =
        [CallRestore (Finite 1)])
  /\ (Array_find (matches Toy.key_hundred) (snapshots Toy.with_unplugged) =
        Ok (Some Toy.unplugged_record)
      /\ restore Toy.unplugged Toy.genesis =
           (Throw (Thrown (JString "ECONNREFUSED")), Toy.genesis)
      /\ fst (Toy.loadFixture Toy.deploy Toy.hundred Toy.with_unplugged) =
           Throw (Thrown (JString "ECONNREFUSED"))
      /\ trace (snd (Toy.loadFixture Toy.deploy Toy.hundred Toy.with_unplugged)) =
           [CallRestore (Finite 1)]).
Proof.
  assert (Hn : name Toy.deploy <> "") by discriminate.
  assert (Hk : key (name Toy.deploy) Toy.hundred = Ok Toy.key_hundred)
    by reflexivity.
  assert (Hf : Array_find (matches Toy.key_hundred) (snapshots Toy.with_stale)
               = Ok (Some Toy.stale_record)) by reflexivity.
  assert (Hr : restore Toy.stale Toy.genesis =
               (Throw InvalidSnapshotError, Toy.genesis)) by reflexivity.
  assert (Hf' : Array_find (matches Toy.key_hundred)
                  (snapshots Toy.with_unplugged)
                = Ok (Some Toy.unplugged_record)) by reflexivity.
  assert (Hr' : restore Toy.unplugged Toy.genesis =
                (Throw (Thrown (JString "ECONNREFUSED")), Toy.genesis))
    by reflexivity.
  destruct (loadFixture_restore_error Toy.takeSnapshot Toy.deploy Toy.hundred
              Toy.with_stale _ _ _ _ Hn Hk Hf Hr) as (H1 & _ & H3).
  destruct (loadFixture_restore_error Toy.takeSnapshot Toy.deploy Toy.hundred
              Toy.with_unplugged _ _ _ _ Hn Hk Hf' Hr') as (_ & H2' & H3').
  assert (Hne : Thrown (JString "ECONNREFUSED") <> InvalidSnapshotError)
    by discriminate.
  exact (conj (conj Hn (conj Hk (conj Hf (conj Hr (conj (H1 eq_refl) H3)))))
              (conj Hf' (conj Hr' (conj (H2' Hne) H3')))).
Defined.

Lemma loadFixture_restore_error_keeps_cache_witness :
  name Toy.deploy <> ""
  /\ key (name Toy.deploy) Toy.hundred = Ok Toy.key_hundred
  /\ Array_find (matches Toy.key_hundred) (snapshots Toy.with_stale) =
       Ok (Some Toy.stale_record)
  /\ restore Toy.stale Toy.genesis = (Throw InvalidSnapshotError, Toy.genesis)
  /\ snapshots (snd (Toy.loadFixture Toy.deploy Toy.hundred Toy.with_stale)) =
       [Toy.stale_record].
Proof.
  assert (Hn : name Toy.deploy <> "") by discriminate.
  assert (Hk : key (name Toy.deploy) Toy.hundred = Ok Toy.key_hundred)
    by reflexivity.
  assert (Hf : Array_find (matches Toy.key_hundred) (snapshots Toy.with_stale)
               = Ok (Some Toy.stale_record)) by reflexivity.
  assert (Hr : restore Toy.stale Toy.genesis =
               (Throw InvalidSnapshotError, Toy.genesis)) by reflexivity.
  exact (conj Hn (conj Hk (conj Hf (conj Hr
           (loadFixture_restore_error_keeps_cache Toy.takeSnapshot Toy.deploy
              Toy.hundred Toy.with_stale _ _ _ _ Hn Hk Hf Hr))))).
Defined.

Lemma loadFixture_miss_path_witness :
  name Toy.deploy <> ""
  /\ key (name Toy.deploy) Toy.two_hundred = Ok Toy.key_two_hundred
  /\ not_cached Toy.key_two_hundred (snapshots Toy.once)
  /\ call Toy.deploy Toy.two_hundred (world Toy.once) =
       (Ok (JNumber (Finite 300)), {| Toy.height := 300; Toy.next_id := 2 |})
  /\ Toy.takeSnapshot {| Toy.height := 300; Toy.next_id := 2 |} =
       (Ok (Toy.snapshot_at 300 2), {| Toy.height := 300; Toy.next_id := 3 |})
  /\ Toy.loadFixture Toy.deploy Toy.two_hundred Toy.once =
       (Ok (JNumber (Finite 300)),
        {| snapshots := [Toy.deploy_record; Toy.second_record];
           world := {| Toy.height := 300; Toy.next_id := 3 |};
           trace := trace Toy.once ++
                    [CallFixture "deploy" Toy.two_hundred; CallTakeSnapshot] |}).
Proof.
  assert (Hn : name Toy.deploy <> "") by discriminate.
  assert (Hk : key (name Toy.deploy) Toy.two_hundred = Ok Toy.key_two_hundred)
    by reflexivity.
  assert (Hnc : not_cached Toy.key_two_hundred (snapshots Toy.once)).
  { repeat constructor. exists Toy.key_hundred. split; [reflexivity|discriminate]. }
  assert (Hc : call Toy.deploy Toy.two_hundred (world Toy.once) =
               (Ok (JNumber (Finite 300)),
                {| Toy.height := 300; Toy.next_id := 2 |})) by reflexivity.
  assert (Ht : Toy.takeSnapshot {| Toy.height := 300; Toy.next_id := 2 |} =
               (Ok (Toy.snapshot_at 300 2),
                {| Toy.height := 300; Toy.next_id := 3 |})) by reflexivity.
  exact (conj Hn (conj Hk (conj Hnc (conj Hc (conj Ht
           (loadFixture_miss_path Toy.takeSnapshot Toy.deploy Toy.two_hundred
              Toy.once _ _ _ _ _ Hn Hk Hnc Hc Ht)))))).
Defined.


Lemma clearSnapshots_then_loadFixture_witness :
  snapshots (snd (clearSnapshots Toy.twice)) = []
  /\ exists rest,
       trace (snd (Toy.loadFixture Toy.deploy Toy.hundred
                     (set_world Toy.genesis (snd (clearSnapshots Toy.twice))))) =
         trace Toy.twice ++ CallFixture "deploy" Toy.hundred :: rest.
Proof.
  destruct (clearSnapshots_then_loadFixture Toy.takeSnapshot Toy.twice)
    as [H1 H2].
  split; [exact H1|].
  apply (H2 Toy.deploy Toy.hundred Toy.key_hundred Toy.genesis).
  - discriminate.
  - reflexivity.
Defined.


Lemma loadFixture_unserializable_args_witness :
  name Toy.deploy <> ""
  /\ existsb unserializable Toy.with_cycle = true
  /\ flattened (JFunction "setup") = true
  /\ Toy.loadFixture Toy.deploy Toy.with_cycle Toy.with_null =
       (Throw TypeError, Toy.with_null)
  /\ key (name Toy.deploy) Toy.with_callback = Ok Toy.key_null
  /\ fst (Toy.loadFixture Toy.deploy Toy.with_callback Toy.with_null) =
       Ok (data Toy.null_record).
Proof.
  assert (Hn : name Toy.deploy <> "") by discriminate.
  assert (Hu : existsb unserializable Toy.with_cycle = true) by reflexivity.
  assert (Hv : flattened (JFunction "setup") = true) by reflexivity.
  assert (Hk : key (name Toy.deploy) ([] ++ JNull :: []) = Ok Toy.key_null)
    by reflexivity.
  assert (Hf : Array_find (matches Toy.key_null) (snapshots Toy.with_null) =
               Ok (Some Toy.null_record)) by reflexivity.
  assert (Hr : restore (restorer Toy.null_record) (world Toy.with_null) =
               (Ok tt, {| Toy.height := 1; Toy.next_id := 2 |}))
    by reflexivity.
  destruct (loadFixture_unserializable_args Toy.takeSnapshot Toy.deploy
              Toy.with_cycle Toy.with_null Hn) as [H1 _].
  destruct (loadFixture_unserializable_args Toy.takeSnapshot Toy.deploy
              Toy.with_callback Toy.with_null Hn) as [_ H2].
  destruct (H2 [] (JFunction "setup") [] eq_refl Hv) as [E H3].
  destruct (H3 _ _ _ Hk Hf Hr) as [H4 _].
  exact (conj Hn (conj Hu (conj Hv (conj (H1 Hu)
           (conj (eq_trans E Hk) H4))))).
Defined.

(** C9 (as stated) fails on a function argument: after
    [loadFixture(deploy, [null])], the call [loadFixture(deploy, [setup])]
    with a function [setup] does not throw; it is keyed like [[null]], finds
    the record stored for [[null]], restores its snapshot and returns its
    data, and the fixture is not run. *)
Lemma function_argument_is_keyed_as_null :
  flattened (JFunction "setup") = true
  /\ Toy.with_callback <> args Toy.null_record
  /\ key "deploy" Toy.with_callback = key "deploy" (args Toy.null_record)
  /\ snapshots Toy.with_null = [Toy.null_record]
  /\ Toy.loadFixture Toy.deploy Toy.with_callback Toy.with_null =
       (Ok (data Toy.null_record),
        {| snapshots := [Toy.null_record];
           world := {| Toy.height := 1; Toy.next_id := 2 |};
           trace := trace Toy.with_null ++ [CallRestore (Finite 1)] |}).
Proof.
  split; [reflexivity|]. split; [discriminate|].
  split; [reflexivity|]. split; reflexivity.
Qed.

(** ** The further properties on the small network *)



Lemma loadFixture_throw_keeps_cache_witness :
  fst (Toy.loadFixture Toy.deploy Toy.hundred Toy.with_stale) =
    Throw (FixtureSnapshotError InvalidSnapshotError)
  /\ snapshots (snd (Toy.loadFixture Toy.deploy Toy.hundred Toy.with_stale)) =
       [Toy.stale_record].
Proof.
  assert (H : fst (Toy.loadFixture Toy.deploy Toy.hundred Toy.with_stale) =
              Throw (FixtureSnapshotError InvalidSnapshotError))
    by reflexivity.
  exact (conj H (loadFixture_throw_keeps_cache Toy.takeSnapshot Toy.deploy
                   Toy.hundred Toy.with_stale _ H)).
Defined.

Lemma loadFixture_failed_restore_is_tried_again_witness :
  name Toy.deploy <> ""
  /\ key (name Toy.deploy) Toy.hundred = Ok Toy.key_hundred
  /\ Array_find (matches Toy.key_hundred) (snapshots Toy.with_stale) =
       Ok (Some Toy.stale_record)
  /\ restore Toy.stale Toy.genesis = (Throw InvalidSnapshotError, Toy.genesis)
  /\ trace (snd (Toy.loadFixture Toy.deploy Toy.hundred
                   (set_world {| Toy.height := 9; Toy.next_id := 1 |}
                      (snd (Toy.loadFixture Toy.deploy Toy.hundred
                              Toy.with_stale))))) =
       [CallRestore (Finite 1); CallRestore (Finite 1)].
Proof.
  assert (Hn : name Toy.deploy <> "") by discriminate.
  assert (Hk : key (name Toy.deploy) Toy.hundred = Ok Toy.key_hundred)
    by reflexivity.
  assert (Hf : Array_find (matches Toy.key_hundred) (snapshots Toy.with_stale)
               = Ok (Some Toy.stale_record)) by reflexivity.
  assert (Hr : restore Toy.stale Toy.genesis =
               (Throw InvalidSnapshotError, Toy.genesis)) by reflexivity.
  exact (conj Hn (conj Hk (conj Hf (conj Hr
           (loadFixture_failed_restore_is_tried_again Toy.takeSnapshot
              Toy.deploy Toy.hundred Toy.with_stale _ _ _ _ Hn Hk Hf Hr
              Toy.deploy {| Toy.height := 9; Toy.next_id := 1 |}
              eq_refl))))).
Defined.

Lemma loadFixture_hit_again_witness :
  name Toy.deploy <> ""
  /\ key (name Toy.deploy) Toy.hundred = Ok Toy.key_hundred
  /\ Array_find (matches Toy.key_hundred) (snapshots Toy.twice) =
       Ok (Some Toy.deploy_record)
  /\ restore (restorer Toy.deploy_record) (world Toy.twice) =
       (Ok tt, {| Toy.height := 100; Toy.next_id := 3 |})
  /\ isNaN (id_of Toy.deploy_record) = false
  /\ restore (restorer Toy.deploy_record)
       {| Toy.height := 500; Toy.next_id := 3 |} =
       (Ok tt, {| Toy.height := 100; Toy.next_id := 3 |})
  /\ Toy.loadFixture Toy.deploy Toy.hundred
       (set_world {| Toy.height := 500; Toy.next_id := 3 |}
          (snd (Toy.loadFixture Toy.deploy Toy.hundred Toy.twice))) =
       (Ok (JNumber (Finite 100)),
        {| snapshots := [Toy.deploy_record];
           world := {| Toy.height := 100; Toy.next_id := 3 |};
           trace := trace Toy.twice ++
                    [CallRestore (Finite 1); CallRestore (Finite 1)] |}).
Proof.
  assert (Hn : name Toy.deploy <> "") by discriminate.
  assert (Hk : key (name Toy.deploy) Toy.hundred = Ok Toy.key_hundred)
    by reflexivity.
  assert (Hf : Array_find (matches Toy.key_hundred) (snapshots Toy.twice) =
               Ok (Some Toy.deploy_record)) by reflexivity.
  assert (Hr : restore (restorer Toy.deploy_record) (world Toy.twice) =
               (Ok tt, {| Toy.height := 100; Toy.next_id := 3 |}))
    by reflexivity.
  assert (Hnum : isNaN (id_of Toy.deploy_record) = false) by reflexivity.
  assert (Hr' : restore (restorer Toy.deploy_record)
                  {| Toy.height := 500; Toy.next_id := 3 |} =
                (Ok tt, {| Toy.height := 100; Toy.next_id := 3 |}))
    by reflexivity.
  exact (conj Hn (conj Hk (conj Hf (conj Hr (conj Hnum (conj Hr'
           (loadFixture_hit_again Toy.takeSnapshot Toy.deploy Toy.hundred
              Toy.twice _ _ _ _ _ Hn Hk Hf Hr Hnum Hr'))))))).
Defined.

Lemma loadFixture_hit_truncates_witness :
  name Toy.deployToken <> ""
  /\ key (name Toy.deployToken) [] = Ok Toy.key_token
  /\ Array_find (matches Toy.key_token) (snapshots Toy.thrice) =
       Ok (Some Toy.token_record)
  /\ restore (restorer Toy.token_record) (world Toy.thrice) =
       (Ok tt, {| Toy.height := 101; Toy.next_id := 4 |})
  /\ snapshots Toy.thrice =
       [Toy.deploy_record] ++ Toy.token_record :: [Toy.third_record]
  /\ ids_increasing (snapshots Toy.thrice)
  /\ isNaN (id_of Toy.token_record) = false
  /\ snapshots (snd (Toy.loadFixture Toy.deployToken [] Toy.thrice)) =
       [Toy.deploy_record] ++ [Toy.token_record].
Proof.
  assert (Hn : name Toy.deployToken <> "") by discriminate.
  assert (Hk : key (name Toy.deployToken) [] = Ok Toy.key_token)
    by reflexivity.
  assert (Hf : Array_find (matches Toy.key_token) (snapshots Toy.thrice) =
               Ok (Some Toy.token_record)) by reflexivity.
  assert (Hr : restore (restorer Toy.token_record) (world Toy.thrice) =
               (Ok tt, {| Toy.height := 101; Toy.next_id := 4 |}))
    by reflexivity.
  assert (Hs : snapshots Toy.thrice =
               [Toy.deploy_record] ++ Toy.token_record :: [Toy.third_record])
    by reflexivity.
  assert (Hinc : ids_increasing (snapshots Toy.thrice)).
  { rewrite Hs. simpl.
    apply ids_increasing_cons; [intros y [<-|[<-|[]]]; reflexivity|].
    apply ids_increasing_cons; [intros y [<-|[]]; reflexivity|].
    apply ids_increasing_cons; [intros y []|].
    apply ids_increasing_nil. }
  assert (Hnum : isNaN (id_of Toy.token_record) = false) by reflexivity.
  exact (conj Hn (conj Hk (conj Hf (conj Hr (conj Hs (conj Hinc (conj Hnum
           (loadFixture_hit_truncates Toy.takeSnapshot Toy.deployToken []
              Toy.thrice _ _ _ _ _ Hn Hk Hf Hr Hs Hinc Hnum)))))))).
Defined.

Lemma loadFixture_hit_NaN_empties_witness :
  name Toy.deployToken <> ""
  /\ key (name Toy.deployToken) [] = Ok Toy.key_token
  /\ Array_find (matches Toy.key_token) (snapshots Toy.with_odd) =
       Ok (Some Toy.odd_record)
  /\ restore (restorer Toy.odd_record) (world Toy.with_odd) =
       (Ok tt, Toy.genesis)
  /\ isNaN (id_of Toy.odd_record) = true
  /\ fst (Toy.loadFixture Toy.deployToken [] Toy.with_odd) =
       Ok (JNumber (Finite 7))
  /\ snapshots (snd (Toy.loadFixture Toy.deployToken [] Toy.with_odd)) = [].
Proof.
  assert (Hn : name Toy.deployToken <> "") by discriminate.
  assert (Hk : key (name Toy.deployToken) [] = Ok Toy.key_token)
    by reflexivity.
  assert (Hf : Array_find (matches Toy.key_token) (snapshots Toy.with_odd) =
               Ok (Some Toy.odd_record)) by reflexivity.
  assert (Hr : restore (restorer Toy.odd_record) (world Toy.with_odd) =
               (Ok tt, Toy.genesis)) by reflexivity.
  assert (Hnan : isNaN (id_of Toy.odd_record) = true) by reflexivity.
  exact (conj Hn (conj Hk (conj Hf (conj Hr (conj Hnan
           (loadFixture_hit_NaN_empties Toy.takeSnapshot Toy.deployToken []
              Toy.with_odd _ _ _ Hn Hk Hf Hr Hnan)))))).
Defined.

Lemma key_shared_iff_witness :
  key "deploy" Toy.hundred = Ok Toy.key_hundred
  /\ (key "deployToken" Toy.hundred = Ok Toy.key_hundred <->
      "deployToken" = "deploy"
      /\ JSON.stringify (JArray Toy.hundred) =
           JSON.stringify (JArray Toy.hundred)).
Proof.
  assert (H : key "deploy" Toy.hundred = Ok Toy.key_hundred) by reflexivity.
  exact (conj H (key_shared_iff "deploy" "deployToken" Toy.hundred
                   Toy.hundred Toy.key_hundred H)).
Defined.

(** ** The claims on the small network with a heap *)





(** ** The further properties on the small network with a heap *)

Lemma ToyHeap_quiet_undisturbed :
  ByReference.undisturbed ToyHeap.deref ToyHeap.takeSnapshot ToyHeap.quiet.
Proof.
  apply (ByReference.undisturbed_loadFixture ToyHeap.deref ToyHeap.takeSnapshot
           (ByReference.initial ToyHeap.start) ToyHeap.mine 2%nat).
  - apply ByReference.undisturbed_initial.
  - repeat constructor.
Qed.

Lemma ToyHeap_twice_reachable :
  ByReference.reachable ToyHeap.deref ToyHeap.takeSnapshot ToyHeap.twice.
Proof.
  apply (ByReference.reachable_loadFixture ToyHeap.deref ToyHeap.takeSnapshot
           ToyHeap.once ToyHeap.init 1%nat).
  apply (ByReference.reachable_loadFixture ToyHeap.deref ToyHeap.takeSnapshot
           (ByReference.initial ToyHeap.start) ToyHeap.init 0%nat).
  apply ByReference.reachable_initial.
Qed.

Lemma loadFixture_undisturbed_lookup_witness :
  ByReference.undisturbed ToyHeap.deref ToyHeap.takeSnapshot ToyHeap.quiet
  /\ ByReference.name ToyHeap.mine <> ""
  /\ key (ByReference.name ToyHeap.mine)
         (ToyHeap.deref (ByReference.world ToyHeap.quiet) 3) =
       Ok ToyHeap.key_mine_hundred
  /\ exists c rest,
       ByReference.trace
         (snd (ToyHeap.loadFixture ToyHeap.mine 3%nat ToyHeap.quiet)) =
         ByReference.trace ToyHeap.quiet ++ c :: rest
       /\ (c = CallFixture "mine" Toy.hundred
           \/ exists s,
                In s (ByReference.snapshots ToyHeap.quiet)
                /\ ByReference.cacheKey_of ToyHeap.deref
                     (ByReference.world ToyHeap.quiet) s =
                   Ok ToyHeap.key_mine_hundred
                /\ c = CallRestore (ByReference.id_of s)).
Proof.
  assert (Hn : ByReference.name ToyHeap.mine <> "") by discriminate.
  assert (Hk : key (ByReference.name ToyHeap.mine)
                 (ToyHeap.deref (ByReference.world ToyHeap.quiet) 3) =
               Ok ToyHeap.key_mine_hundred) by reflexivity.
  exact (conj ToyHeap_quiet_undisturbed (conj Hn (conj Hk
           (ByReferenceFacts.loadFixture_undisturbed_lookup
              ToyHeap.deref ToyHeap.takeSnapshot ToyHeap.mine 3%nat
              ToyHeap.quiet _ ToyHeap_quiet_undisturbed Hn Hk)))).
Defined.

Lemma loadFixture_returns_fresh_or_stored_witness :
  ByReference.reachable ToyHeap.deref ToyHeap.takeSnapshot ToyHeap.twice
  /\ fst (ToyHeap.loadFixture ToyHeap.init 1%nat ToyHeap.twice) =
       Ok (JNumber (Finite 1))
  /\ ((exists w1,
         ByReference.call ToyHeap.init 1%nat (ByReference.world ToyHeap.twice) =
           (Ok (JNumber (Finite 1)), w1))
      \/ (exists s,
            In s (ByReference.snapshots ToyHeap.twice)
            /\ ByReference.data s = JNumber (Finite 1)
            /\ ByReference.name (ByReference.fixture s) = "init"
            /\ ByReference.text ToyHeap.deref (ByReference.world ToyHeap.twice)
                 (ByReference.args s) =
               ByReference.text ToyHeap.deref (ByReference.world ToyHeap.twice)
                 1%nat
            /\ ByReference.stored_by_a_run ToyHeap.takeSnapshot s)).
Proof.
  assert (H : fst (ToyHeap.loadFixture ToyHeap.init 1%nat ToyHeap.twice) =
              Ok (JNumber (Finite 1))) by reflexivity.
  exact (conj ToyHeap_twice_reachable (conj H
           (ByReferenceFacts.loadFixture_returns_fresh_or_stored
              ToyHeap.deref ToyHeap.takeSnapshot ToyHeap.init 1%nat
              ToyHeap.twice _ ToyHeap_twice_reachable H))).
Defined.

